(** * Portfolio performance metrics ([streamlit_task/processing.py])

    A shallow embedding of the metric functions of [processing.py] and of the
    pandas / numpy primitives they call, followed by the properties the
    specification states about them.

    Number model.  The code computes on IEEE-754 doubles.  A [float64] here is
    either a finite value or one of the three special values the code can
    produce: [PInf], [NInf] and [NaN] ([np.nan], the "not computable" marker).
    Finite values are exact reals: rounding and overflow are not modelled, and
    zero is unsigned (it divides like [+0.0]).  The special values follow the
    IEEE rules that numpy scalars and arrays obey: division by zero gives an
    infinity or [NaN] (numpy warns, it does not raise), [NaN] propagates and
    compares unequal to everything.

    Series.  A function that reads one series takes the list of its values;
    a function that combines two series takes them with their index, since
    pandas matches entries by index.  Reductions skip missing values, as the
    pandas methods do by default.  Definitions named [spec_...], and the
    real-valued statistics, follow the formulas of the specification; all
    other definitions follow the code. *)

From Stdlib Require Import Reals Lra Lia List Bool ZArith Arith.
From Stdlib Require Import Sorting.Sorted Sorting.Permutation.
From Stdlib Require Strings.String.
Import ListNotations.
Import String.StringSyntax.
Delimit Scope string_scope with string.
Open Scope R_scope.

(** ** IEEE-style arithmetic over the reals *)

Inductive float64 : Type :=
| Fin (r : R)
| PInf
| NInf
| NaN.

Definition Reqb (x y : R) : bool := if Req_dec_T x y then true else false.
Definition Rltb (x y : R) : bool := if Rlt_dec x y then true else false.
Definition Rleb (x y : R) : bool := if Rle_dec x y then true else false.

Definition is_nan (x : float64) : bool :=
  match x with NaN => true | _ => false end.

Definition fneg (x : float64) : float64 :=
  match x with
  | Fin a => Fin (- a)
  | PInf => NInf
  | NInf => PInf
  | NaN => NaN
  end.

Definition fadd (x y : float64) : float64 :=
  match x, y with
  | NaN, _ | _, NaN => NaN
  | Fin a, Fin b => Fin (a + b)
  | PInf, NInf | NInf, PInf => NaN
  | PInf, _ | _, PInf => PInf
  | NInf, _ | _, NInf => NInf
  end.

Definition fsub (x y : float64) : float64 :=
  match x, y with
  | NaN, _ | _, NaN => NaN
  | Fin a, Fin b => Fin (a - b)
  | PInf, PInf | NInf, NInf => NaN
  | PInf, _ | _, NInf => PInf
  | NInf, _ | _, PInf => NInf
  end.

(** The infinity with the sign of the nonzero real [a] ([NaN] for [a = 0]). *)
Definition signed_inf (a : R) : float64 :=
  if Reqb a 0 then NaN else if Rltb 0 a then PInf else NInf.

Definition fmul (x y : float64) : float64 :=
  match x, y with
  | NaN, _ | _, NaN => NaN
  | Fin a, Fin b => Fin (a * b)
  | Fin a, PInf | PInf, Fin a => signed_inf a
  | Fin a, NInf | NInf, Fin a => signed_inf (- a)
  | PInf, PInf | NInf, NInf => PInf
  | PInf, NInf | NInf, PInf => NInf
  end.

Definition fdiv (x y : float64) : float64 :=
  match x, y with
  | NaN, _ | _, NaN => NaN
  | Fin a, Fin b => if Reqb b 0 then signed_inf a else Fin (a / b)
  | Fin _, (PInf | NInf) => Fin 0
  | (PInf | NInf), (PInf | NInf) => NaN
  | PInf, Fin b => if Rltb b 0 then NInf else PInf
  | NInf, Fin b => if Rltb b 0 then PInf else NInf
  end.

Definition fsqrt (x : float64) : float64 :=
  match x with
  | Fin a => if Rltb a 0 then NaN else Fin (sqrt a)
  | PInf => PInf
  | NInf | NaN => NaN
  end.

(** [x ** 2] *)
Definition fsqr (x : float64) : float64 := fmul x x.

(** IEEE comparisons: every comparison with [NaN] is false, [!=] is true. *)
Definition feqb (x y : float64) : bool :=
  match x, y with
  | Fin a, Fin b => Reqb a b
  | PInf, PInf | NInf, NInf => true
  | _, _ => false
  end.

Definition fneb (x y : float64) : bool := negb (feqb x y).

Definition fltb (x y : float64) : bool :=
  match x, y with
  | NaN, _ | _, NaN => false
  | Fin a, Fin b => Rltb a b
  | NInf, NInf => false
  | NInf, _ => true
  | PInf, _ => false
  | Fin _, PInf => true
  | Fin _, NInf => false
  end.

Definition fleb (x y : float64) : bool :=
  match x, y with
  | NaN, _ | _, NaN => false
  | Fin a, Fin b => Rleb a b
  | NInf, _ => true
  | _, PInf => true
  | _, _ => false
  end.

(** [np.minimum]: element-wise minimum that propagates [NaN]. *)
Definition np_minimum (x y : float64) : float64 :=
  match x, y with
  | NaN, _ | _, NaN => NaN
  | _, _ => if fltb y x then y else x
  end.

(** ** pandas / numpy primitives on the values of a series *)

(** Reductions of a pandas [Series] skip missing values ([skipna=True]). *)
Definition dropna (l : list float64) : list float64 :=
  filter (fun x => negb (is_nan x)) l.

Definition fillna (v : float64) (l : list float64) : list float64 :=
  map (fun x => if is_nan x then v else x) l.

Fixpoint fsum (l : list float64) : float64 :=
  match l with
  | [] => Fin 0
  | x :: t => fadd x (fsum t)
  end.

(** Number of observations, as the float the sums are divided by. *)
Definition fcount (l : list float64) : float64 := Fin (INR (length l)).

(** [Series.mean()], also reached through [np.mean(series)]. *)
Definition series_mean (l : list float64) : float64 :=
  match dropna l with
  | [] => NaN
  | v => fdiv (fsum v) (fcount v)
  end.

(** [Series.var(ddof)]: missing when no more than [ddof] observations are
    left, otherwise the squared deviations from the mean over [count - ddof]. *)
Definition series_var (ddof : nat) (l : list float64) : float64 :=
  let v := dropna l in
  if (length v <=? ddof)%nat then NaN
  else
    let avg := fdiv (fsum v) (fcount v) in
    fdiv (fsum (map (fun x => fsqr (fsub avg x)) v))
         (Fin (INR (length v - ddof))).

(** [Series.std()] has [ddof=1]; [np.std(series)] and [np.var(series)]
    forward numpy's default [ddof=0] to the pandas method. *)
Definition series_std (l : list float64) : float64 := fsqrt (series_var 1 l).
Definition np_std (l : list float64) : float64 := fsqrt (series_var 0 l).
Definition np_var (l : list float64) : float64 := series_var 0 l.
Definition np_mean (l : list float64) : float64 := series_mean l.

(** [Series.min()]: the smallest non-missing value, missing when there is
    none. *)
Definition fmin2 (m y : float64) : float64 := if fltb y m then y else m.

Definition series_min (l : list float64) : float64 :=
  match dropna l with
  | [] => NaN
  | x :: t => fold_left fmin2 t x
  end.

(** [Series.shift(1)] puts a missing value in front; [pct_change] is
    [data / data.shift(1) - 1]. *)
Fixpoint pct_change_from (prev : float64) (l : list float64) : list float64 :=
  match l with
  | [] => []
  | x :: t => fsub (fdiv x prev) (Fin 1) :: pct_change_from x t
  end.

Definition pct_change (l : list float64) : list float64 :=
  pct_change_from NaN l.

(** [Series.cumprod()]: a missing entry stays missing and is skipped by the
    running product. *)
Fixpoint cumprod_from (acc : float64) (l : list float64) : list float64 :=
  match l with
  | [] => []
  | x :: t =>
      if is_nan x then NaN :: cumprod_from acc t
      else fmul acc x :: cumprod_from (fmul acc x) t
  end.

Definition cumprod (l : list float64) : list float64 :=
  cumprod_from (Fin 1) l.

(** [Series.expanding(min_periods=1).max()]: the largest non-missing value
    seen so far, missing while there is none. *)
Fixpoint expanding_max_from (acc : float64) (l : list float64)
  : list float64 :=
  match l with
  | [] => []
  | x :: t =>
      let acc' :=
        if is_nan x then acc
        else if is_nan acc then x
        else if fltb acc x then x else acc in
      acc' :: expanding_max_from acc' t
  end.

Definition expanding_max (l : list float64) : list float64 :=
  expanding_max_from NaN l.

(** Element-wise operation on two series that share their index. *)
Definition zip_with (f : float64 -> float64 -> float64)
  (a b : list float64) : list float64 :=
  map (fun p => f (fst p) (snd p)) (combine a b).

(** Sorting, for [quantile]. *)
Fixpoint insert_sorted (x : float64) (l : list float64) : list float64 :=
  match l with
  | [] => [x]
  | y :: t => if fleb x y then x :: l else y :: insert_sorted x t
  end.

Definition sort_values (l : list float64) : list float64 :=
  fold_right insert_sorted [] l.

(** [Series.quantile(q)] with the default linear interpolation: the value at
    the virtual index [q * (n - 1)] of the sorted non-missing values.  pandas
    raises [ValueError] unless [0 <= q <= 1]: [None] stands for that. *)
Definition series_quantile (l : list float64) (q : R) : option float64 :=
  if Rleb 0 q && Rleb q 1 then
    let v := sort_values (dropna l) in
    match v with
    | [] => Some NaN
    | _ =>
        let pos := q * INR (length v - 1) in
        let j := Z.to_nat (Int_part pos) in
        let g := frac_part pos in
        let lo := nth j v NaN in
        let hi := nth (Nat.min (S j) (length v - 1)) v NaN in
        Some (fadd lo (fmul (fsub hi lo) (Fin g)))
    end
  else None.

(** ** Indexed series and alignment

    A series with its index: timestamps (as integers) paired with values.
    Timestamps are distinct within a series; operations between two series
    match entries by timestamp, as pandas does. *)

Definition Series : Type := list (Z * float64).

Definition values (s : Series) : list float64 := map snd s.

Fixpoint lookup (t : Z) (s : Series) : option float64 :=
  match s with
  | [] => None
  | (u, x) :: r => if Z.eqb t u then Some x else lookup t r
  end.

Definition has_key (t : Z) (s : Series) : bool :=
  match lookup t s with Some _ => true | None => false end.

Definition get (t : Z) (s : Series) : float64 :=
  match lookup t s with Some x => x | None => NaN end.

(** [a - b] on two series: the result is indexed by the union of the two
    indexes and is missing wherever one side has no entry. *)
Definition series_sub (a b : Series) : Series :=
  map (fun p => (fst p, fsub (snd p) (get (fst p) b))) a
  ++ map (fun p => (fst p, NaN))
         (filter (fun p => negb (has_key (fst p) a)) b).

(** [a.align(b, join='inner')]: both series restricted to the timestamps
    they share. *)
Definition align_inner (a b : Series) : Series * Series :=
  let a' := filter (fun p => has_key (fst p) b) a in
  (a', map (fun p => (fst p, get (fst p) b)) a').

(** [pd.concat([a, b], axis=1).dropna()] for two series with the same index:
    the rows in which neither column is missing. *)
Definition concat_dropna (a b : Series) : list (float64 * float64) :=
  filter (fun r => negb (is_nan (fst r)) && negb (is_nan (snd r)))
         (combine (values a) (values b)).

(** [np.cov(x, y)[0][1]]: the products of the deviations from the two
    averages, scaled by [1 / (n - 1)] ([1 / 0.0] when [n <= 1]). *)
Definition np_cov01 (x y : list float64) : float64 :=
  let n := length x in
  let avg_x := fdiv (fsum x) (Fin (INR n)) in
  let avg_y := fdiv (fsum y) (Fin (INR n)) in
  let fact := if (n <=? 1)%nat then 0 else INR (n - 1) in
  fmul (fsum (zip_with (fun a b => fmul (fsub a avg_x) (fsub b avg_y)) x y))
       (fdiv (Fin 1) (Fin fact)).

(** ** The functions of [processing.py] *)

(** The argument of [calculate_cumulative_returns] is a series of prices or a
    frame with an ['Adj Close'] column of prices.  Prices are finite numbers. *)
Inductive PriceData : Type :=
| PriceSeries (prices : list R)
| PriceFrame (adj_close : list R).

(** [data.pct_change().fillna(0)], the simple returns both branches build. *)
Definition simple_returns (data : PriceData) : list float64 :=
  match data with
  | PriceSeries prices => fillna (Fin 0) (pct_change (map Fin prices))
  | PriceFrame adj_close => fillna (Fin 0) (pct_change (map Fin adj_close))
  end.

Definition calculate_cumulative_returns (data : PriceData) : list float64 :=
  let returns := simple_returns data in
  map (fun x => fsub x (Fin 1)) (cumprod (map (fadd (Fin 1)) returns)).

(** [np.sqrt(252)] *)
Definition sqrt_252 : float64 := fsqrt (Fin 252).

Definition default_risk_free_rate : R := 1 / 100.

Definition calculate_annual_volatility (returns : list float64) : float64 :=
  fmul (series_std returns) sqrt_252.

Definition calculate_sharpe_ratio (returns : list float64)
  (risk_free_rate : R) : float64 :=
  let excess_returns :=
    fsub (series_mean returns) (Fin (risk_free_rate / 252)) in
  fmul (fdiv excess_returns (series_std returns)) sqrt_252.

Definition calculate_maximum_drawdown (cumulative_returns : list float64)
  : float64 :=
  let peak := expanding_max cumulative_returns in
  let drawdown :=
    zip_with fdiv (zip_with fsub cumulative_returns peak) peak in
  series_min drawdown.

Definition calculate_var (returns : list float64) (confidence period : R)
  : option float64 :=
  match returns with
  | [] => Some NaN
  | _ =>
      match series_quantile returns (1 - confidence) with
      | None => None
      | Some var =>
          let var_annual := fmul var (fsqrt (Fin period)) in
          Some (fneg var_annual)
      end
  end.

Definition calculate_tracking_error (portfolio_returns benchmark_returns : Series)
  : float64 :=
  fmul (np_std (values (series_sub portfolio_returns benchmark_returns)))
       sqrt_252.

Definition calculate_information_ratio
  (portfolio_returns benchmark_returns : Series) : float64 :=
  let excess_returns :=
    values (series_sub portfolio_returns benchmark_returns) in
  fmul (fdiv (np_mean excess_returns) (np_std excess_returns)) sqrt_252.

Definition calculate_sortino_ratio (returns : list float64)
  (risk_free_rate : R) : float64 :=
  let excess_returns :=
    map (fun x => fsub x (Fin (risk_free_rate / 252))) returns in
  let downside_returns :=
    map (fun x => np_minimum x (Fin 0)) excess_returns in
  let downside_deviation :=
    fmul (fsqrt (np_mean (map fsqr downside_returns))) sqrt_252 in
  if fneb downside_deviation (Fin 0)
  then fdiv (fmul (np_mean excess_returns) (Fin 252)) downside_deviation
  else NaN.

Definition calculate_alpha_beta (portfolio_returns benchmark_returns : Series)
  : float64 * float64 :=
  let (p, b) := align_inner portfolio_returns benchmark_returns in
  let valid_data := concat_dropna p b in
  if (length valid_data <? 2)%nat then (NaN, NaN)
  else
    let portfolio_returns := map fst valid_data in
    let benchmark_returns := map snd valid_data in
    let covariance := np_cov01 portfolio_returns benchmark_returns in
    let benchmark_variance := np_var benchmark_returns in
    if feqb benchmark_variance (Fin 0) then (NaN, NaN)
    else
      let beta := fdiv covariance benchmark_variance in
      let alpha :=
        fsub (np_mean portfolio_returns)
             (fmul beta (np_mean benchmark_returns)) in
      (fmul alpha (Fin 252), beta).

(** ** Real-valued statistics, as the specification writes its formulas *)

Fixpoint Rsum (l : list R) : R :=
  match l with
  | [] => 0
  | x :: t => x + Rsum t
  end.

Definition Rmean (l : list R) : R := Rsum l / INR (length l).

(** Sum of the squared deviations from the mean. *)
Definition sum_sq_dev (l : list R) : R :=
  Rsum (map (fun x => (Rmean l - x) * (Rmean l - x)) l).

(** Sample (divisor [n - 1]) and population (divisor [n]) standard deviation. *)
Definition sample_std (l : list R) : R :=
  sqrt (sum_sq_dev l / INR (length l - 1)).

Definition population_std (l : list R) : R :=
  sqrt (sum_sq_dev l / INR (length l)).

Definition population_var (l : list R) : R :=
  sum_sq_dev l / INR (length l).

(** Sample covariance (divisor [n - 1]). *)
Definition sample_cov (xs ys : list R) : R :=
  Rsum (map (fun p => (fst p - Rmean xs) * (snd p - Rmean ys))
            (combine xs ys))
  / INR (length xs - 1).

(** ** Returns and prices in the words of the specification *)

(** The return series in the words of the specification: 0 at index 0, then
    [P[i] / P[i-1] - 1]. *)
Fixpoint spec_returns_from (prev : R) (l : list R) : list float64 :=
  match l with
  | [] => []
  | x :: t => fsub (fdiv (Fin x) (Fin prev)) (Fin 1) :: spec_returns_from x t
  end.

Definition spec_returns (P : list R) : list float64 :=
  match P with
  | [] => []
  | p0 :: t => Fin 0 :: spec_returns_from p0 t
  end.

(** Product of a list, left to right from 1. *)
Definition fprod (l : list float64) : float64 := fold_left fmul l (Fin 1).

(** The cumulative series in the words of the specification:
    [cumulative[i] = prod_{j=0..i} (1 + r[j]) - 1]. *)
Definition spec_cumulative (r : list float64) : list float64 :=
  map (fun i => fsub (fprod (map (fadd (Fin 1)) (firstn (S i) r))) (Fin 1))
      (seq 0 (length r)).

(** Prices rebuilt from an initial price and a return series:
    [price[i] = price[0] * prod_{j=1..i} (1 + r[j])]. *)
Definition reconstruct_prices (p0 : R) (r : list float64) : list float64 :=
  map (fun i => fmul (Fin p0) (fprod (map (fadd (Fin 1)) (firstn i (tl r)))))
      (seq 0 (length r)).

(** The quotients of consecutive prices. *)
Fixpoint ratios_from (prev : R) (l : list R) : list R :=
  match l with
  | [] => []
  | x :: t => x / prev :: ratios_from x t
  end.

Fixpoint Rprod (l : list R) : R :=
  match l with
  | [] => 1
  | x :: t => x * Rprod t
  end.

(** ** Drawdown of a finite series *)

(** Running maximum of a finite series. *)
Fixpoint running_max_from (m : R) (l : list R) : list R :=
  match l with
  | [] => []
  | x :: t => Rmax m x :: running_max_from (Rmax m x) t
  end.

Definition running_max (l : list R) : list R :=
  match l with
  | [] => []
  | x :: t => x :: running_max_from x t
  end.

(** Each cumulative return next to its running peak. *)
Definition drawdown_rows (cum : list R) : list (R * R) :=
  combine cum (running_max cum).

Definition drawdown_ratio (r : R * R) : R := (fst r - snd r) / snd r.

(** The drawdown in the words of the specification: the indexes whose peak
    is 0 are left out, and the minimum of [(cum - peak) / peak] over the
    others is returned ([NaN] when none is left). *)
Definition spec_maximum_drawdown (cum : list R) : float64 :=
  match map drawdown_ratio
            (filter (fun r => negb (Reqb (snd r) 0)) (drawdown_rows cum)) with
  | [] => NaN
  | x :: t => Fin (fold_left Rmin t x)
  end.

(** A row whose peak is 0 while the cumulative return is negative. *)
Definition below_zero_peak (r : R * R) : bool :=
  Reqb (snd r) 0 && Rltb (fst r) 0.

Definition drawdown_term (r : R * R) : float64 :=
  fdiv (Fin (fst r - snd r)) (Fin (snd r)).

(** ** Quantile of a finite sample *)

Fixpoint Rinsert (x : R) (l : list R) : list R :=
  match l with
  | [] => [x]
  | y :: t => if Rleb x y then x :: l else y :: Rinsert x t
  end.

Definition Rsort (l : list R) : list R := fold_right Rinsert [] l.

(** Quantile of a finite sample by linear interpolation between the order
    statistics around the virtual index [q * (n - 1)]. *)
Definition Rquantile (l : list R) (q : R) : R :=
  let v := Rsort l in
  let pos := q * INR (length v - 1) in
  let j := Z.to_nat (Int_part pos) in
  let lo := nth j v 0 in
  let hi := nth (Nat.min (S j) (length v - 1)) v 0 in
  lo + (hi - lo) * frac_part pos.

(** ** Sortino ratio, alpha and beta, tracking error on finite data *)

(** The per-period excess returns and their downside part. *)
Definition excess_over (rf : R) (l : list R) : list R :=
  map (fun y => y - rf / 252) l.

Definition downside_deviation (rf : R) (l : list R) : R :=
  sqrt (Rmean (map (fun y => y * y)
                   (map (fun y => Rmin y 0) (excess_over rf l))))
  * sqrt 252.

(** The rows [calculate_alpha_beta] computes on: the inner join of the two
    series, without the rows that have a missing value. *)
Definition aligned_rows (p b : Series) : list (float64 * float64) :=
  let (p', b') := align_inner p b in concat_dropna p' b'.

Definition fin_row (r : R * R) : float64 * float64 :=
  (Fin (fst r), Fin (snd r)).

(** The result of [calculate_alpha_beta] as a function of its valid rows. *)
Definition alpha_beta_of_rows (valid_data : list (float64 * float64))
  : float64 * float64 :=
  if (length valid_data <? 2)%nat then (NaN, NaN)
  else
    let xs := map fst valid_data in
    let ys := map snd valid_data in
    if feqb (np_var ys) (Fin 0) then (NaN, NaN)
    else
      let beta := fdiv (np_cov01 xs ys) (np_var ys) in
      (fmul (fsub (np_mean xs) (fmul beta (np_mean ys))) (Fin 252), beta).

(** The result of [calculate_alpha_beta] on finite rows, over the reals: the
    code divides the sample covariance of [np.cov] (divisor [n - 1]) by the
    population variance of [np.var] (divisor [n]). *)
Definition alpha_beta_of_finite_rows (rows : list (R * R))
  : float64 * float64 :=
  let xs := map fst rows in
  let ys := map snd rows in
  if (length rows <? 2)%nat then (NaN, NaN)
  else if Reqb (population_var ys) 0 then (NaN, NaN)
  else
    let beta := sample_cov xs ys / population_var ys in
    (Fin ((Rmean xs - beta * Rmean ys) * 252), Fin beta).

(** Population covariance (divisor [n]) and sample variance (divisor
    [n - 1]): with [sample_cov] and [population_var] they give the covariance
    and the variance on either divisor. *)
Definition population_cov (xs ys : list R) : R :=
  Rsum (map (fun p => (fst p - Rmean xs) * (snd p - Rmean ys))
            (combine xs ys))
  / INR (length xs).

Definition sample_var (l : list R) : R :=
  sum_sq_dev l / INR (length l - 1).

(** Alpha and beta in the words of the specification, on finite rows: beta
    is the slope of the portfolio returns regressed on the benchmark returns,
    [beta = cov(r, b) / var(b)] with the covariance and the variance on one
    divisor, and [alpha = (mean(r) - beta * mean(b)) * 252]; both are not
    computable with fewer than two rows or a benchmark of variance 0. *)
Definition spec_alpha_beta (rows : list (R * R)) : float64 * float64 :=
  let xs := map fst rows in
  let ys := map snd rows in
  if (length rows <? 2)%nat then (NaN, NaN)
  else if Reqb (population_var ys) 0 then (NaN, NaN)
  else
    let beta := population_cov xs ys / population_var ys in
    (Fin ((Rmean xs - beta * Rmean ys) * 252), Fin beta).

(** The finite differences a pair of series leaves after alignment. *)
Definition aligned_differences (p b : Series) : list float64 :=
  dropna (values (series_sub p b)).

(** ** Example data *)

Definition example_returns_var : list R :=
  [1 / 100; - 2 / 100; 15 / 1000; - 5 / 1000; 2 / 100].

(** A portfolio and a benchmark that share the timestamps 1, 2 and 3; the
    portfolio has no value at 3. *)
Definition example_portfolio : Series :=
  [(1%Z, Fin (1 / 100)); (2%Z, Fin (3 / 100)); (3%Z, NaN);
   (5%Z, Fin (2 / 100))].

Definition example_benchmark : Series :=
  [(1%Z, Fin (2 / 100)); (2%Z, Fin (4 / 100)); (3%Z, Fin (1 / 100));
   (4%Z, Fin (5 / 100))].

Definition example_rows : list (R * R) :=
  [(1 / 100, 2 / 100); (3 / 100, 4 / 100)].

Definition example_differences : list R :=
  [1 / 100 - 2 / 100; 3 / 100 - 1 / 100].

(** ** Further notions used by the properties *)

(** A result that is not a positive number: a finite value at most 0, minus
    infinity, or missing. *)
Definition not_positive (x : float64) : Prop :=
  match x with
  | Fin v => v <= 0
  | PInf => False
  | NInf | NaN => True
  end.

(** All the entries of a list are the same number. *)
Definition all_equal (l : list R) : Prop :=
  forall x y, In x l -> In y l -> x = y.

(** ** The portfolio of [streamlit_task/main.py]

    [st.session_state.portfolio] is a dict from ticker to an asset, itself a
    dict with the keys ['class'], ['type'], ['weight'] and ['value'].  A dict
    keeps its keys distinct and in insertion order, and the page iterates
    over it in that order: it is a list of entries here.  Weights and values
    are Python floats, finite in every run; they are exact reals here. *)

Record Asset : Type := mkAsset {
  asset_class : String.string;
  asset_type : String.string;
  asset_weight : R;
  asset_value : R
}.

Definition Portfolio : Type := list (String.string * Asset).

(** [portfolio.get(ticker)] *)
Fixpoint portfolio_get (ticker : String.string) (p : Portfolio)
  : option Asset :=
  match p with
  | [] => None
  | (k, a) :: rest =>
      if String.eqb ticker k then Some a else portfolio_get ticker rest
  end.

(** [ticker in portfolio] *)
Definition portfolio_contains (ticker : String.string) (p : Portfolio)
  : bool :=
  match portfolio_get ticker p with Some _ => true | None => false end.

(** [del portfolio[ticker]] *)
Definition portfolio_del (ticker : String.string) (p : Portfolio)
  : Portfolio :=
  filter (fun e => negb (String.eqb ticker (fst e))) p.

(** [portfolio[ticker] = asset] for a ticker that is not a key yet: the new
    entry comes last. *)
Definition portfolio_add (ticker : String.string) (a : Asset) (p : Portfolio)
  : Portfolio :=
  p ++ [(ticker, a)].

(** The part of [st.session_state] the page reads and writes. *)
Record SessionState : Type := mkSessionState {
  portfolio : Portfolio;
  total_value : R;
  new_asset_class : String.string;
  new_asset_ticker : String.string;
  new_asset_type : String.string
}.

Definition with_portfolio (st : SessionState) (p : Portfolio)
  : SessionState :=
  mkSessionState p (total_value st) (new_asset_class st)
    (new_asset_ticker st) (new_asset_type st).

(** What a handler shows: [st.success] or [st.warning]. *)
Inductive Message : Type :=
| Success (text : String.string)
| Warning (text : String.string).

(** A handler returns, or ends the script run with [st.rerun()]. *)
Inductive Outcome : Type :=
| Returned (st : SessionState) (shown : list Message)
| RerunRequested (st : SessionState) (shown : list Message).

Definition outcome_state (o : Outcome) : SessionState :=
  match o with Returned st _ | RerunRequested st _ => st end.

(** A string is true in a condition when it is not empty. *)
Definition truthy (s : String.string) : bool :=
  match s with String.EmptyString => false | _ => true end.

(** [add_asset()].  [upper] stands for [str.upper], which the model leaves
    open: it is any function on strings. *)
Definition add_asset (upper : String.string -> String.string)
  (st : SessionState) : Outcome :=
  let asset_class := new_asset_class st in
  let ticker := upper (new_asset_ticker st) in
  let asset_type := new_asset_type st in
  if truthy ticker && negb (portfolio_contains ticker (portfolio st)) then
    Returned
      (with_portfolio st
         (portfolio_add ticker (mkAsset asset_class asset_type 0 0)
            (portfolio st)))
      [Success (String.append "Added "%string
                  (String.append ticker " to the portfolio."%string))]
  else if portfolio_contains ticker (portfolio st) then
    Returned st
      [Warning (String.append ticker " is already in the portfolio."%string)]
  else
    Returned st [Warning "Please enter a ticker symbol."%string].

(** [delete_asset(ticker)] *)
Definition delete_asset (ticker : String.string) (st : SessionState)
  : Outcome :=
  if portfolio_contains ticker (portfolio st) then
    RerunRequested
      (with_portfolio st (portfolio_del ticker (portfolio st)))
      [Success (String.append "Removed "%string
                  (String.append ticker " from the portfolio."%string))]
  else Returned st [].

(** Sum of the weights held in the portfolio. *)
Definition portfolio_weight (p : Portfolio) : R :=
  Rsum (map (fun e => asset_weight (snd e)) p).

(** ** The price table of [exercise2/query.py]

    The table [crypto_prices] of the SQLite database, once [create_table]
    has run: rows [(id, coin, price, timestamp)] in insertion order, and the
    largest id handed out so far, which [AUTOINCREMENT] never reuses.
    Timestamps are in seconds: [CURRENT_TIMESTAMP] and [datetime('now', ...)]
    have a resolution of one second and compare in time order.  The clock is
    an argument of the operations that read it.  Prices are finite numbers
    (the column is [REAL NOT NULL]). *)

Record PriceRow : Type := mkPriceRow {
  row_id : Z;
  row_coin : String.string;
  row_price : R;
  row_timestamp : Z
}.

Record PriceTable : Type := mkPriceTable {
  table_rows : list PriceRow;
  last_id : Z
}.

Definition empty_table : PriceTable := mkPriceTable [] 0.

(** [WHERE coin = ?] *)
Definition rows_of_coin (coin : String.string) (t : PriceTable)
  : list PriceRow :=
  filter (fun r => String.eqb (row_coin r) coin) (table_rows t).

(** [insert_data(coin, price)] at the time [now]. *)
Definition insert_data (coin : String.string) (price : R) (now : Z)
  (t : PriceTable) : PriceTable :=
  mkPriceTable
    (table_rows t ++ [mkPriceRow (last_id t + 1) coin price now])
    (last_id t + 1).

(** [LIMIT n]: a negative limit is no limit. *)
Definition sql_limit {A : Type} (n : Z) (l : list A) : list A :=
  if (n <? 0)%Z then l else firstn (Z.to_nat n) l.

(** [OFFSET k]: a negative offset is 0. *)
Definition sql_offset {A : Type} (k : Z) (l : list A) : list A :=
  skipn (Z.to_nat k) l.

(** [fetch_data_paginated(coin, page, page_size)].  SQL leaves the order of
    rows with equal timestamps open: [order_by_timestamp_desc] stands for
    the ordering the engine applies. *)
Definition fetch_data_paginated
  (order_by_timestamp_desc : list PriceRow -> list PriceRow)
  (coin : String.string) (page page_size : Z) (t : PriceTable)
  : list PriceRow :=
  let offset := ((page - 1) * page_size)%Z in
  sql_limit page_size
    (sql_offset offset (order_by_timestamp_desc (rows_of_coin coin t))).

(** What the ordering has to satisfy: the same rows, newest first. *)
Definition newest_first (l : list PriceRow) : Prop :=
  StronglySorted (fun a b => (row_timestamp b <= row_timestamp a)%Z) l.

(** [MIN(price)] and [MAX(price)] of a non-empty group. *)
Definition min_price (x : R) (l : list R) : R := fold_left Rmin l x.
Definition max_price (x : R) (l : list R) : R := fold_left Rmax l x.

(** One row of [fetch_aggregated_data]:
    [(coin, avg_price, min_price, max_price, data_points)]. *)
Record Aggregate : Type := mkAggregate {
  agg_coin : String.string;
  agg_avg : R;
  agg_min : R;
  agg_max : R;
  agg_count : Z
}.

(** [fetch_aggregated_data(coin)]: one group when the coin has rows, none
    otherwise. *)
Definition fetch_aggregated_data (coin : String.string) (t : PriceTable)
  : list Aggregate :=
  match map row_price (rows_of_coin coin t) with
  | [] => []
  | x :: l =>
      [mkAggregate coin (Rmean (x :: l)) (min_price x l) (max_price x l)
         (Z.of_nat (length (x :: l)))]
  end.

(** [delete_old_data()] at the time [now]:
    [DELETE ... WHERE timestamp < datetime('now', '-1 day')]. *)
Definition delete_old_data (now : Z) (t : PriceTable) : PriceTable :=
  mkPriceTable
    (filter (fun r => negb (row_timestamp r <? now - 86400)%Z)
            (table_rows t))
    (last_id t).


(** An ordering that satisfies [newest_first]: insertion sort, rows with
    equal timestamps in table order. *)
Fixpoint insert_row (r : PriceRow) (l : list PriceRow) : list PriceRow :=
  match l with
  | [] => [r]
  | s :: rest =>
      if (row_timestamp s <? row_timestamp r)%Z then r :: l
      else s :: insert_row r rest
  end.

Definition sort_rows (l : list PriceRow) : list PriceRow :=
  fold_right insert_row [] l.

(** A table with three prices of one coin and one of another. *)
Definition example_table : PriceTable :=
  insert_data "BTC"%string 30 300
    (insert_data "ETH"%string 5 200
       (insert_data "BTC"%string 20 200
          (insert_data "BTC"%string 10 100 empty_table))).

(** ** The chart of [streamlit_task/fig.py] *)

(** [Series.max()]: the largest non-missing value, missing when there is
    none. *)
Definition fmax2 (m y : float64) : float64 := if fltb m y then y else m.

Definition series_max (l : list float64) : float64 :=
  match dropna l with
  | [] => NaN
  | x :: t => fold_left fmax2 t x
  end.

(** Python's [min(a, b)] and [max(a, b)] on two floats: the second argument
    wins only when it compares strictly below (above) the first. *)
Definition py_min (a b : float64) : float64 := if fltb b a then b else a.
Definition py_max (a b : float64) : float64 := if fltb a b then b else a.

(** What the function hands to plotly: the two line traces, the range of the
    y axis and the end points of the dashed zero line. *)
Record Trace : Type := mkTrace {
  trace_x : list Z;
  trace_y : list float64;
  trace_name : String.string;
  trace_color : String.string
}.

Record Figure : Type := mkFigure {
  fig_traces : list Trace;
  yaxis_range : float64 * float64;
  zero_line : Z * Z
}.

Inductive PlotResult : Type :=
| Plotted (fig : Figure)
| RaisesAttributeError
| RaisesIndexError.

(** [plot_cumulative_returns(portfolio_returns, benchmark_returns)].  The
    benchmark is [None] when the caller has none: reading its [.index] then
    raises.  [portfolio_returns.index[0]] raises on an empty series. *)
Definition plot_cumulative_returns (portfolio_returns : Series)
  (benchmark_returns : option Series) : PlotResult :=
  let percent := map (fun v => fmul v (Fin 100)) in
  let portfolio_trace :=
    mkTrace (map fst portfolio_returns) (percent (values portfolio_returns))
      "Benchmark"%string "black"%string in
  match benchmark_returns with
  | None => RaisesAttributeError
  | Some benchmark_returns =>
      let benchmark_trace :=
        mkTrace (map fst benchmark_returns)
          (percent (values benchmark_returns))
          "SPX"%string "orange"%string in
      let y_min :=
        fmul (py_min (series_min (values portfolio_returns))
                     (series_min (values benchmark_returns))) (Fin 100) in
      let y_max :=
        fmul (py_max (series_max (values portfolio_returns))
                     (series_max (values benchmark_returns))) (Fin 100) in
      let y_range := (fsub y_min (Fin 5), fadd y_max (Fin 5)) in
      match portfolio_returns with
      | [] => RaisesIndexError
      | (first, _) :: _ =>
          Plotted
            (mkFigure [portfolio_trace; benchmark_trace] y_range
               (first, last (map fst portfolio_returns) first))
      end
  end.

(** ** The allocation step of [main()] in [streamlit_task/main.py]

    One script run of the part of [main()] that walks over the portfolio by
    asset class, writes the weight and the value each widget returns into its
    asset, and normalizes the weights when they add up to more than 1.  What
    the widgets return in the run is an input: the allocation mode of the
    radio button, the number each slider or number input returns (by asset
    class and ticker, as in its key), and whether each Delete button was
    clicked.  Markup written to the page is left out. *)

Definition ASSET_CLASSES : list (String.string * list String.string) :=
  [("Equity"%string, ["Stock"%string]);
   ("Fixed Income"%string, ["Fixed Income"%string]);
   ("Commodities"%string, ["Commodity"%string]);
   ("Crypto"%string, ["Crypto"%string])].

Inductive AllocationType : Type :=
| PercentWeighted
| DollarAbsolute.

Record WidgetInputs : Type := mkWidgetInputs {
  allocation_type : AllocationType;
  widget_value : String.string -> String.string -> R;
  delete_clicked : String.string -> bool
}.

(** The two assignments to [asset['weight']] and [asset['value']]. *)
Definition set_allocation (mode : AllocationType) (total : R) (v : R)
  (a : Asset) : Asset :=
  match mode with
  | PercentWeighted =>
      mkAsset (asset_class a) (asset_type a) (v / 100) (v / 100 * total)
  | DollarAbsolute =>
      mkAsset (asset_class a) (asset_type a)
        (if Reqb total 0 then 0 else v / total) v
  end.

Inductive LoopResult : Type :=
| LoopDone (st : SessionState) (total_weight total_value_sum : R)
| LoopRerun (st : SessionState).

(** The inner loop [for ticker, asset in list(portfolio.items())] for one
    asset class.  The assets are updated in place, so the entries keep
    their order: [done] holds the entries already visited, [items] the ones
    still to visit.  A click on Delete calls [delete_asset] and reruns. *)
Fixpoint class_pass (inp : WidgetInputs) (st : SessionState)
  (cls : String.string) (done items : Portfolio) (tw tv : R) : LoopResult :=
  match items with
  | [] => LoopDone (with_portfolio st done) tw tv
  | (ticker, asset) :: rest =>
      if String.eqb (asset_class asset) cls then
        let asset' :=
          set_allocation (allocation_type inp) (total_value st)
            (widget_value inp cls ticker) asset in
        if delete_clicked inp ticker then
          LoopRerun
            (outcome_state
               (delete_asset ticker
                  (with_portfolio st (done ++ (ticker, asset') :: rest))))
        else
          class_pass inp st cls (done ++ [(ticker, asset')]) rest
            (tw + asset_weight asset') (tv + asset_value asset')
      else class_pass inp st cls (done ++ [(ticker, asset)]) rest tw tv
  end.

(** The outer loop [for asset_class in ASSET_CLASSES]. *)
Fixpoint classes_loop (inp : WidgetInputs) (classes : list String.string)
  (st : SessionState) (tw tv : R) : LoopResult :=
  match classes with
  | [] => LoopDone st tw tv
  | cls :: more =>
      match class_pass inp st cls [] (portfolio st) tw tv with
      | LoopDone st' tw' tv' => classes_loop inp more st' tw' tv'
      | LoopRerun st' => LoopRerun st'
      end
  end.

(** [if total_weight > 1.0:] divide every weight by the total and recompute
    the values. *)
Definition normalize_portfolio (total_weight : R) (st : SessionState)
  : SessionState :=
  if Rltb 1 total_weight then
    with_portfolio st
      (map (fun e =>
              (fst e,
               mkAsset (asset_class (snd e)) (asset_type (snd e))
                 (asset_weight (snd e) / total_weight)
                 (asset_weight (snd e) / total_weight * total_value st)))
           (portfolio st))
  else st.

Definition allocate_portfolio (inp : WidgetInputs) (st : SessionState)
  : LoopResult :=
  match classes_loop inp (map fst ASSET_CLASSES) st 0 0 with
  | LoopDone st' total_weight total_value_sum =>
      LoopDone (normalize_portfolio total_weight st') total_weight
        total_value_sum
  | LoopRerun st' => LoopRerun st'
  end.

(** The class of every asset is one of [ASSET_CLASSES], as the select box
    of the page ensures. *)
Definition known_classes (p : Portfolio) : Prop :=
  Forall (fun e => In (asset_class (snd e)) (map fst ASSET_CLASSES)) p.

(** What a run without a Delete click writes into an entry whose class is
    among [classes]. *)
Definition allocated_entry (inp : WidgetInputs) (total : R)
  (classes : list String.string) (e : String.string * Asset)
  : String.string * Asset :=
  if existsb (String.eqb (asset_class (snd e))) classes then
    (fst e,
     set_allocation (allocation_type inp) total
       (widget_value inp (asset_class (snd e)) (fst e)) (snd e))
  else e.


(** ** Example states and inputs *)

Definition example_state : SessionState :=
  mkSessionState
    [("AAPL"%string, mkAsset "Equity"%string "Stock"%string (1 / 2) 50000)]
    100000 "Crypto"%string "btc-usd"%string "Crypto"%string.

(** Two sliders at 80% and 60% and no click on Delete. *)
Definition example_inputs : WidgetInputs :=
  mkWidgetInputs PercentWeighted (fun _ _ => 80) (fun _ => false).

(** * Properties *)

(** ** Deciding comparisons of reals *)

Lemma Reqb_true (x y : R) : x = y -> Reqb x y = true.
Proof. intros H. unfold Reqb. destruct (Req_dec_T x y); congruence. Qed.

Lemma Reqb_false (x y : R) : x <> y -> Reqb x y = false.
Proof. intros H. unfold Reqb. destruct (Req_dec_T x y); congruence. Qed.

Lemma Rltb_true (x y : R) : x < y -> Rltb x y = true.
Proof. intros H. unfold Rltb. destruct (Rlt_dec x y); [reflexivity | lra]. Qed.

Lemma Rltb_false (x y : R) : y <= x -> Rltb x y = false.
Proof. intros H. unfold Rltb. destruct (Rlt_dec x y); [lra | reflexivity]. Qed.

Lemma Rleb_true (x y : R) : x <= y -> Rleb x y = true.
Proof. intros H. unfold Rleb. destruct (Rle_dec x y); [reflexivity | lra]. Qed.

Lemma Rleb_false (x y : R) : y < x -> Rleb x y = false.
Proof. intros H. unfold Rleb. destruct (Rle_dec x y); [lra | reflexivity]. Qed.

Lemma Reqb_spec (x y : R) : reflect (x = y) (Reqb x y).
Proof. unfold Reqb. destruct (Req_dec_T x y); constructor; assumption. Qed.

Lemma Rltb_spec (x y : R) : reflect (x < y) (Rltb x y).
Proof. unfold Rltb. destruct (Rlt_dec x y); constructor; assumption. Qed.

Lemma Rleb_spec (x y : R) : reflect (x <= y) (Rleb x y).
Proof. unfold Rleb. destruct (Rle_dec x y); constructor; assumption. Qed.

(** Settles every comparison of the goal that linear arithmetic decides. *)
Ltac rdecide :=
  repeat match goal with
    | |- context [Reqb ?a ?b] =>
        first [ rewrite (Reqb_true a b) by lra
              | rewrite (Reqb_false a b) by lra ]
    | |- context [Rltb ?a ?b] =>
        first [ rewrite (Rltb_true a b) by lra
              | rewrite (Rltb_false a b) by lra ]
    | |- context [Rleb ?a ?b] =>
        first [ rewrite (Rleb_true a b) by lra
              | rewrite (Rleb_false a b) by lra ]
    end.

(** Equality of finite values, and of lists of them, by arithmetic. *)
Ltac fin_eq :=
  match goal with
  | |- Fin _ = Fin _ => apply f_equal; first [lra | field; lra]
  | |- _ => reflexivity
  end.

Ltac fin_list := repeat (apply f_equal2; [fin_eq |]); try reflexivity.

Lemma sqrt_252_pos : 0 < sqrt 252.
Proof. apply sqrt_lt_R0. lra. Qed.

Lemma sqrt_252_eq : sqrt_252 = Fin (sqrt 252).
Proof. unfold sqrt_252, fsqrt. rdecide. reflexivity. Qed.

Lemma fdiv_Fin (a b : R) : b <> 0 -> fdiv (Fin a) (Fin b) = Fin (a / b).
Proof. intros Hb. unfold fdiv. rewrite Reqb_false by exact Hb. reflexivity. Qed.

Lemma fdiv_zero (a : R) : fdiv (Fin a) (Fin 0) = signed_inf a.
Proof. unfold fdiv. rewrite Reqb_true by reflexivity. reflexivity. Qed.

Lemma signed_inf_scale (e k : R) :
  0 < k -> fmul (signed_inf e) (Fin k) = signed_inf e.
Proof.
  intros Hk. unfold signed_inf.
  destruct (Reqb_spec e 0) as [He | He]; [reflexivity |].
  destruct (Rltb_spec 0 e) as [Hp | Hp]; simpl; unfold signed_inf; rdecide;
    reflexivity.
Qed.

(** ** Finite series: the reductions compute the textbook formulas *)

Lemma dropna_Fin (l : list R) : dropna (map Fin l) = map Fin l.
Proof.
  unfold dropna. induction l as [| x l IH]; simpl; [reflexivity |].
  rewrite IH. reflexivity.
Qed.

Lemma fsum_Fin (l : list R) : fsum (map Fin l) = Fin (Rsum l).
Proof.
  induction l as [| x l IH]; simpl; [reflexivity |].
  rewrite IH. reflexivity.
Qed.

Lemma INR_length_cons_pos {A : Type} (x : A) (l : list A) :
  0 < INR (length (x :: l)).
Proof. apply lt_0_INR. simpl. lia. Qed.

Lemma series_mean_cons (l : list float64) (x : float64) (t : list float64) :
  dropna l = x :: t -> series_mean l = fdiv (fsum (x :: t)) (fcount (x :: t)).
Proof. intros H. unfold series_mean. rewrite H. reflexivity. Qed.

Lemma series_mean_Fin (x : R) (l : list R) :
  series_mean (map Fin (x :: l)) = Fin (Rmean (x :: l)).
Proof.
  rewrite (series_mean_cons _ (Fin x) (map Fin l))
    by (exact (dropna_Fin (x :: l))).
  change (Fin x :: map Fin l) with (map Fin (x :: l)).
  unfold fcount. rewrite fsum_Fin, length_map.
  pose proof (INR_length_cons_pos x l) as Hn.
  rewrite fdiv_Fin by lra. reflexivity.
Qed.

Lemma sum_sq_dev_nonneg (l : list R) : 0 <= sum_sq_dev l.
Proof.
  unfold sum_sq_dev. generalize (Rmean l) as m. intros m.
  induction l as [| x l IH]; simpl; [lra |].
  pose proof (Rle_0_sqr (m - x)) as Hs. unfold Rsqr in Hs. lra.
Qed.

Lemma series_var_Fin (ddof : nat) (l : list R) :
  (ddof < length l)%nat ->
  series_var ddof (map Fin l)
  = Fin (sum_sq_dev l / INR (length l - ddof)).
Proof.
  intros Hlen. unfold series_var. rewrite dropna_Fin, length_map.
  destruct (Nat.leb_spec (length l) ddof) as [Hle | _]; [lia |].
  destruct l as [| x l]; [simpl in Hlen; lia |].
  unfold fcount. rewrite fsum_Fin, length_map.
  pose proof (INR_length_cons_pos x l) as Hn.
  rewrite fdiv_Fin by lra.
  fold (Rmean (x :: l)).
  assert (Hmap : forall m k, map (fun y => fsqr (fsub (Fin m) y)) (map Fin k)
                        = map Fin (map (fun y => (m - y) * (m - y)) k)).
  { intros m k. rewrite !map_map. apply map_ext. intros y. reflexivity. }
  rewrite Hmap, fsum_Fin. fold (sum_sq_dev (x :: l)).
  assert (Hd : 0 < INR (length (x :: l) - ddof)) by (apply lt_0_INR; lia).
  rewrite fdiv_Fin by lra. reflexivity.
Qed.

Lemma series_var_short (ddof : nat) (l : list R) :
  (length l <= ddof)%nat -> series_var ddof (map Fin l) = NaN.
Proof.
  intros Hlen. unfold series_var. rewrite dropna_Fin, length_map.
  destruct (Nat.leb_spec (length l) ddof) as [_ | Hlt]; [reflexivity | lia].
Qed.

Lemma fsqrt_nonneg (a : R) : 0 <= a -> fsqrt (Fin a) = Fin (sqrt a).
Proof. intros Ha. unfold fsqrt. rewrite Rltb_false by lra. reflexivity. Qed.

Lemma var_quotient_nonneg (l : list R) (d : nat) :
  (0 < d)%nat -> 0 <= sum_sq_dev l / INR d.
Proof.
  intros Hd. apply Rmult_le_pos; [apply sum_sq_dev_nonneg |].
  left. apply Rinv_0_lt_compat. apply lt_0_INR. exact Hd.
Qed.

Lemma series_std_Fin (l : list R) :
  (2 <= length l)%nat -> series_std (map Fin l) = Fin (sample_std l).
Proof.
  intros Hlen. unfold series_std. rewrite series_var_Fin by lia.
  apply fsqrt_nonneg. apply var_quotient_nonneg. lia.
Qed.

Lemma np_std_Fin (l : list R) :
  (1 <= length l)%nat -> np_std (map Fin l) = Fin (population_std l).
Proof.
  intros Hlen. unfold np_std. rewrite series_var_Fin by lia.
  rewrite Nat.sub_0_r. apply fsqrt_nonneg. apply var_quotient_nonneg. lia.
Qed.

Lemma np_var_Fin (l : list R) :
  (1 <= length l)%nat -> np_var (map Fin l) = Fin (population_var l).
Proof.
  intros Hlen. unfold np_var. rewrite series_var_Fin by lia.
  rewrite Nat.sub_0_r. reflexivity.
Qed.

(** ** Sample and population standard deviation *)

Lemma population_sample_std (l : list R) :
  (2 <= length l)%nat ->
  population_std l
  = sample_std l * sqrt (INR (length l - 1) / INR (length l)).
Proof.
  intros Hlen. unfold population_std, sample_std.
  assert (Ha : 0 < INR (length l - 1)) by (apply lt_0_INR; lia).
  assert (Hb : 0 < INR (length l)) by (apply lt_0_INR; lia).
  rewrite <- sqrt_mult.
  - f_equal. field. split; lra.
  - apply var_quotient_nonneg. lia.
  - apply Rmult_le_pos; [lra |]. left. apply Rinv_0_lt_compat. exact Hb.
Qed.

Lemma population_le_sample_std (l : list R) :
  (2 <= length l)%nat -> population_std l <= sample_std l.
Proof.
  intros Hlen. unfold population_std, sample_std.
  assert (Ha : 0 < INR (length l - 1)) by (apply lt_0_INR; lia).
  assert (Hab : INR (length l - 1) <= INR (length l)) by (apply le_INR; lia).
  pose proof (sum_sq_dev_nonneg l) as Hs.
  apply sqrt_le_1_alt. unfold Rdiv.
  apply Rmult_le_compat_l; [exact Hs |].
  apply Rinv_le_contravar; assumption.
Qed.

Lemma population_std_single (x : R) : population_std [x] = 0.
Proof.
  unfold population_std, sum_sq_dev, Rmean. simpl.
  replace ((((x + 0) / 1 - x) * ((x + 0) / 1 - x) + 0) / 1) with 0 by field.
  apply sqrt_0.
Qed.

Lemma sample_std_constant_pair (c : R) : sample_std [c; c] = 0.
Proof.
  unfold sample_std, sum_sq_dev, Rmean. simpl.
  match goal with |- sqrt ?e = 0 => replace e with 0 by field end.
  apply sqrt_0.
Qed.

(** ** Sharpe ratio *)

(** With at least two finite returns of zero sample deviation, the quotient
    of [calculate_sharpe_ratio] is a division by zero: the result is the
    infinity with the sign of the excess return, and [NaN] only when the mean
    return equals the daily risk-free rate exactly. *)
Lemma sharpe_ratio_zero_std (l : list R) (rf : R) :
  (2 <= length l)%nat ->
  sample_std l = 0 ->
  calculate_sharpe_ratio (map Fin l) rf = signed_inf (Rmean l - rf / 252).
Proof.
  intros Hlen Hstd. unfold calculate_sharpe_ratio.
  destruct l as [| x l]; [simpl in Hlen; lia |].
  rewrite series_mean_Fin, series_std_Fin by exact Hlen.
  rewrite Hstd, sqrt_252_eq. cbn [fsub]. rewrite fdiv_zero.
  apply signed_inf_scale. exact sqrt_252_pos.
Qed.

Lemma sharpe_ratio_Fin (l : list R) (rf : R) :
  (2 <= length l)%nat ->
  sample_std l <> 0 ->
  calculate_sharpe_ratio (map Fin l) rf
  = Fin ((Rmean l - rf / 252) / sample_std l * sqrt 252).
Proof.
  intros Hlen Hstd. unfold calculate_sharpe_ratio.
  destruct l as [| x l]; [simpl in Hlen; lia |].
  rewrite series_mean_Fin, series_std_Fin by exact Hlen.
  rewrite sqrt_252_eq. cbn [fsub]. rewrite fdiv_Fin by exact Hstd.
  reflexivity.
Qed.

(** C1.  The specification asks for a zero-deviation guard in the Sharpe
    ratio, so that constant returns give the not-computable marker.
    [calculate_sharpe_ratio] divides without a guard: on the constant series
    [[0, 0]] with the default risk-free rate the sample deviation is 0 and the
    result is minus infinity, not [NaN]. *)
Theorem sharpe_ratio_constant_returns_is_infinite :
  series_std [Fin 0; Fin 0] = Fin 0
  /\ calculate_sharpe_ratio [Fin 0; Fin 0] default_risk_free_rate = NInf.
Proof.
  pose proof (sample_std_constant_pair 0) as Hstd.
  split.
  - change [Fin 0; Fin 0] with (map Fin [0; 0]).
    rewrite series_std_Fin by (simpl; lia). rewrite Hstd. reflexivity.
  - change [Fin 0; Fin 0] with (map Fin [0; 0]).
    rewrite sharpe_ratio_zero_std by (simpl; lia || exact Hstd).
    unfold signed_inf, Rmean, default_risk_free_rate. simpl.
    rdecide. reflexivity.
Qed.

(** ** Simple and cumulative returns *)

Lemma pct_change_from_Fin (prev : R) (l : list R) :
  pct_change_from (Fin prev) (map Fin l) = spec_returns_from prev l.
Proof.
  revert prev. induction l as [| x l IH]; intros prev; simpl; [reflexivity |].
  rewrite IH. reflexivity.
Qed.

Lemma simple_returns_series (P : list R) :
  simple_returns (PriceSeries P) = fillna (Fin 0) (spec_returns P).
Proof.
  destruct P as [| p0 P]; [reflexivity |].
  unfold simple_returns, pct_change. simpl.
  rewrite pct_change_from_Fin. reflexivity.
Qed.

Lemma simple_returns_frame (P : list R) :
  simple_returns (PriceFrame P) = simple_returns (PriceSeries P).
Proof. reflexivity. Qed.

Lemma spec_returns_from_nonzero (prev : R) (l : list R) :
  Forall (fun p => p <> 0) (prev :: l) ->
  spec_returns_from prev l = map (fun q => Fin (q - 1)) (ratios_from prev l).
Proof.
  revert prev. induction l as [| x l IH]; intros prev H;
    cbn [spec_returns_from ratios_from map]; [reflexivity |].
  inversion H as [| ? ? Hprev Hrest]; subst.
  rewrite fdiv_Fin by exact Hprev. cbn [fsub].
  rewrite IH by exact Hrest. reflexivity.
Qed.

Lemma fillna_no_nan (v : float64) (l : list float64) :
  Forall (fun x => is_nan x = false) l -> fillna v l = l.
Proof.
  induction 1 as [| x l Hx _ IH]; simpl; [reflexivity |].
  rewrite Hx. f_equal. exact IH.
Qed.

Lemma simple_returns_nonzero (p0 : R) (P : list R) :
  Forall (fun p => p <> 0) (p0 :: P) ->
  simple_returns (PriceSeries (p0 :: P)) = spec_returns (p0 :: P).
Proof.
  intros H. rewrite simple_returns_series. apply fillna_no_nan.
  simpl. constructor; [reflexivity |].
  rewrite spec_returns_from_nonzero by exact H.
  apply Forall_forall. intros x Hx. apply in_map_iff in Hx.
  destruct Hx as [q [<- _]]. reflexivity.
Qed.

(** The running product of a series without missing entries. *)
Lemma cumprod_from_no_nan (acc : float64) (l : list float64) :
  Forall (fun x => is_nan x = false) l ->
  cumprod_from acc l
  = map (fun i => fold_left fmul (firstn (S i) l) acc) (seq 0 (length l)).
Proof.
  intros H. revert acc. induction H as [| x l Hx _ IH]; intros acc;
    [reflexivity |].
  cbn [cumprod_from length]. rewrite Hx.
  rewrite <- cons_seq, <- seq_shift. cbn [map]. rewrite map_map.
  f_equal. rewrite IH. apply map_ext. intros i. reflexivity.
Qed.

Lemma one_plus_filled_no_nan (l : list float64) :
  Forall (fun x => is_nan x = false) (map (fadd (Fin 1)) (fillna (Fin 0) l)).
Proof.
  apply Forall_forall. intros y Hy. apply in_map_iff in Hy.
  destruct Hy as [x [<- Hx]]. unfold fillna in Hx. apply in_map_iff in Hx.
  destruct Hx as [z [<- _]]. destruct z; reflexivity.
Qed.

Lemma cumulative_returns_series (P : list R) :
  calculate_cumulative_returns (PriceSeries P)
  = spec_cumulative (simple_returns (PriceSeries P)).
Proof.
  unfold calculate_cumulative_returns, spec_cumulative, cumprod.
  rewrite simple_returns_series.
  rewrite cumprod_from_no_nan by apply one_plus_filled_no_nan.
  rewrite map_map, length_map. apply map_ext. intros i.
  unfold fprod. rewrite firstn_map. reflexivity.
Qed.

Lemma simple_returns_cons (p : R) (P : list R) :
  simple_returns (PriceSeries (p :: P))
  = Fin 0 :: fillna (Fin 0) (spec_returns_from p P).
Proof. rewrite simple_returns_series. reflexivity. Qed.

Lemma cumulative_returns_head (p : R) (P : list R) :
  nth_error (calculate_cumulative_returns (PriceSeries (p :: P))) 0
  = Some (Fin 0).
Proof.
  unfold calculate_cumulative_returns. rewrite simple_returns_cons.
  unfold cumprod. cbn [map cumprod_from fadd is_nan fmul fsub nth_error].
  do 2 f_equal. lra.
Qed.

Lemma spec_returns_of_zero_prices : spec_returns [0; 0] = [Fin 0; NaN].
Proof.
  unfold spec_returns, spec_returns_from. rewrite fdiv_zero.
  unfold signed_inf. rdecide. reflexivity.
Qed.

Lemma returns_of_zero_prices :
  simple_returns (PriceSeries [0; 0]) = [Fin 0; Fin 0].
Proof.
  rewrite simple_returns_series, spec_returns_of_zero_prices. reflexivity.
Qed.

(** C2, as stated, fails on a price series that stays at zero: the quotient
    [0 / 0] is missing, and [fillna(0)] turns the return into 0 there, where
    the formula [P[i] / P[i-1] - 1] has no value. *)
Lemma returns_formula_fails_on_zero_prices :
  simple_returns (PriceSeries [0; 0]) = [Fin 0; Fin 0]
  /\ simple_returns (PriceSeries [0; 0]) <> spec_returns [0; 0].
Proof.
  split; [exact returns_of_zero_prices |].
  rewrite returns_of_zero_prices, spec_returns_of_zero_prices.
  intros H. discriminate H.
Qed.

Lemma example_returns :
  simple_returns (PriceSeries [100; 110; 99])
  = [Fin 0; Fin (1 / 10); Fin (- 1 / 10)].
Proof.
  rewrite simple_returns_nonzero
    by (repeat constructor; lra).
  unfold spec_returns. rewrite spec_returns_from_nonzero
    by (repeat constructor; lra).
  cbn [ratios_from map]. fin_list.
Qed.

Lemma example_cumulative_returns :
  calculate_cumulative_returns (PriceSeries [100; 110; 99])
  = [Fin 0; Fin (1 / 10); Fin (- 1 / 100)].
Proof.
  unfold calculate_cumulative_returns. rewrite example_returns.
  unfold cumprod.
  cbn [map cumprod_from fadd is_nan fmul fsub].
  fin_list.
Qed.

(** C2 (amended).  For every price series [P], [calculate_cumulative_returns]
    builds the return series that is 0 at index 0 and [P[i] / P[i-1] - 1]
    at [i > 0], with every missing quotient (0 / 0) filled with 0 as well;
    it returns [cumulative[i] = prod_{j=0..i} (1 + r[j]) - 1].  For the
    prices 100, 110, 99 the returns are 0, 0.10, -0.10 and the cumulative
    series is 0, 0.10, -0.01. *)
Theorem cumulative_returns_formula (P : list R) :
  simple_returns (PriceSeries P) = fillna (Fin 0) (spec_returns P)
  /\ calculate_cumulative_returns (PriceSeries P)
     = spec_cumulative (simple_returns (PriceSeries P))
  /\ simple_returns (PriceSeries [100; 110; 99])
     = [Fin 0; Fin (1 / 10); Fin (- 1 / 10)]
  /\ calculate_cumulative_returns (PriceSeries [100; 110; 99])
     = [Fin 0; Fin (1 / 10); Fin (- 1 / 100)].
Proof.
  split; [apply simple_returns_series |].
  split; [apply cumulative_returns_series |].
  split; [exact example_returns | exact example_cumulative_returns].
Qed.

(** C8.  For every non-empty price series, as a series or as the
    ['Adj Close'] column of a frame, the first cumulative return equals the
    first simple return; both are 0. *)
Theorem cumulative_first_equals_first_return (p : R) (P : list R) :
  nth_error (calculate_cumulative_returns (PriceSeries (p :: P))) 0
  = nth_error (simple_returns (PriceSeries (p :: P))) 0
  /\ nth_error (calculate_cumulative_returns (PriceFrame (p :: P))) 0
     = nth_error (simple_returns (PriceFrame (p :: P))) 0
  /\ nth_error (simple_returns (PriceSeries (p :: P))) 0 = Some (Fin 0).
Proof.
  assert (Hr : nth_error (simple_returns (PriceSeries (p :: P))) 0
               = Some (Fin 0))
    by (rewrite simple_returns_cons; reflexivity).
  split; [| split]; [| | exact Hr].
  - rewrite cumulative_returns_head, Hr. reflexivity.
  - change (calculate_cumulative_returns (PriceFrame (p :: P)))
      with (calculate_cumulative_returns (PriceSeries (p :: P))).
    rewrite simple_returns_frame, cumulative_returns_head, Hr. reflexivity.
Qed.

(** ** Round trip from returns back to prices *)

Lemma fold_left_fmul_Fin (l : list R) (a : R) :
  fold_left fmul (map Fin l) (Fin a) = Fin (a * Rprod l).
Proof.
  revert a. induction l as [| x l IH]; intros a; cbn [map fold_left Rprod].
  - f_equal. ring.
  - cbn [fmul]. rewrite IH. f_equal. ring.
Qed.

Lemma ratios_from_length (prev : R) (l : list R) :
  length (ratios_from prev l) = length l.
Proof.
  revert prev. induction l as [| x l IH]; intros prev; simpl;
    [reflexivity | rewrite IH; reflexivity].
Qed.

(** The chained quotients telescope. *)
Lemma ratios_telescope (prev : R) (l : list R) :
  Forall (fun p => p <> 0) (prev :: l) ->
  map (fun i => prev * Rprod (firstn i (ratios_from prev l)))
      (seq 0 (S (length l)))
  = prev :: l.
Proof.
  revert prev. induction l as [| x l IH]; intros prev H.
  - simpl. f_equal. ring.
  - inversion H as [| ? ? Hprev Hrest]; subst.
    cbn [length]. rewrite <- cons_seq, <- seq_shift. cbn [map].
    rewrite map_map. f_equal.
    + simpl. ring.
    + etransitivity; [| exact (IH x Hrest)]. apply map_ext. intros i.
      cbn [ratios_from firstn Rprod]. field. exact Hprev.
Qed.

Lemma one_plus_returns (l : list R) :
  map (fadd (Fin 1)) (map (fun q => Fin (q - 1)) l) = map Fin l.
Proof.
  rewrite map_map. apply map_ext. intros q. cbn [fadd]. f_equal. ring.
Qed.

(** C9.  For every non-empty price series without a zero price, the prices
    rebuilt from the first price and the return series of the builder,
    [price[0] * prod_{j=1..i} (1 + r[j])], are the original prices (exactly,
    in exact arithmetic). *)
Theorem reconstruct_prices_round_trip (p0 : R) (P : list R) :
  Forall (fun p => p <> 0) (p0 :: P) ->
  reconstruct_prices p0 (simple_returns (PriceSeries (p0 :: P)))
  = map Fin (p0 :: P).
Proof.
  intros H. rewrite simple_returns_nonzero by exact H.
  unfold reconstruct_prices, spec_returns.
  rewrite spec_returns_from_nonzero by exact H.
  cbn [tl length]. rewrite length_map, ratios_from_length.
  etransitivity; [| apply f_equal; exact (ratios_telescope p0 P H)].
  rewrite map_map. apply map_ext. intros i.
  rewrite <- firstn_map, one_plus_returns, firstn_map.
  unfold fprod. rewrite fold_left_fmul_Fin. cbn [fmul]. f_equal. ring.
Qed.

Lemma reconstruct_prices_round_trip_witness :
  Forall (fun p => p <> 0) [100; 110; 99]
  /\ reconstruct_prices 100 (simple_returns (PriceSeries [100; 110; 99]))
     = map Fin [100; 110; 99].
Proof.
  assert (H : Forall (fun p => p <> 0) [100; 110; 99])
    by (repeat constructor; lra).
  split; [exact H | exact (reconstruct_prices_round_trip 100 [110; 99] H)].
Defined.

(** ** Maximum drawdown *)

Ltac rminmax :=
  repeat match goal with
    | |- context [Rmax ?a ?b] =>
        first [ rewrite (Rmax_left a b) by lra
              | rewrite (Rmax_right a b) by lra ]
    | |- context [Rmin ?a ?b] =>
        first [ rewrite (Rmin_left a b) by lra
              | rewrite (Rmin_right a b) by lra ]
    end.

Lemma expanding_max_from_Fin (m : R) (l : list R) :
  expanding_max_from (Fin m) (map Fin l) = map Fin (running_max_from m l).
Proof.
  revert m. induction l as [| x l IH]; intros m; [reflexivity |].
  cbn [map expanding_max_from running_max_from is_nan fltb].
  assert (E : (if Rltb m x then Fin x else Fin m) = Fin (Rmax m x)).
  { destruct (Rltb_spec m x) as [H | H]; f_equal;
      [rewrite Rmax_right | rewrite Rmax_left]; lra. }
  rewrite E, IH. reflexivity.
Qed.

Lemma expanding_max_Fin (l : list R) :
  expanding_max (map Fin l) = map Fin (running_max l).
Proof.
  destruct l as [| x l]; [reflexivity |].
  unfold expanding_max. cbn [map expanding_max_from running_max is_nan].
  rewrite expanding_max_from_Fin. reflexivity.
Qed.

Lemma zip_with_Fin (f : float64 -> float64 -> float64) (a b : list R) :
  zip_with f (map Fin a) (map Fin b)
  = map (fun r => f (Fin (fst r)) (Fin (snd r))) (combine a b).
Proof.
  unfold zip_with. revert b. induction a as [| x a IH]; intros [| y b];
    try reflexivity.
  cbn [map combine fst snd]. f_equal. apply IH.
Qed.

Lemma running_max_from_length (m : R) (l : list R) :
  length (running_max_from m l) = length l.
Proof.
  revert m. induction l as [| x l IH]; intros m; simpl;
    [reflexivity | rewrite IH; reflexivity].
Qed.

Lemma running_max_length (l : list R) : length (running_max l) = length l.
Proof.
  destruct l as [| x l]; simpl; [reflexivity |].
  rewrite running_max_from_length. reflexivity.
Qed.

(** The drawdown series of the code, row by row. *)
Lemma drawdown_series_Fin (cum : list R) :
  zip_with fdiv
    (zip_with fsub (map Fin cum) (expanding_max (map Fin cum)))
    (expanding_max (map Fin cum))
  = map drawdown_term (drawdown_rows cum).
Proof.
  rewrite expanding_max_Fin, (zip_with_Fin fsub).
  unfold zip_with, drawdown_rows.
  generalize (running_max_length cum). generalize (running_max cum).
  induction cum as [| c cum IH]; intros [| p peak] Hlen; try reflexivity;
    try discriminate Hlen.
  cbn [map combine fst snd fsub]. f_equal. apply IH.
  simpl in Hlen. lia.
Qed.

Lemma rows_below_peak_from (m : R) (l : list R) :
  Forall (fun r => fst r <= snd r) (combine l (running_max_from m l)).
Proof.
  revert m. induction l as [| x l IH]; intros m; simpl; constructor.
  - simpl. apply Rmax_r.
  - apply IH.
Qed.

Lemma rows_below_peak (cum : list R) :
  Forall (fun r => fst r <= snd r) (drawdown_rows cum).
Proof.
  destruct cum as [| x l]; simpl; constructor.
  - simpl. lra.
  - apply rows_below_peak_from.
Qed.

Lemma series_min_unfold (l : list float64) :
  series_min l
  = match dropna l with
    | [] => NaN
    | x :: t => fold_left fmin2 t x
    end.
Proof. reflexivity. Qed.

(** Once minus infinity is met, the minimum stays there. *)
Lemma fold_fmin2_NInf (l : list float64) (a : float64) :
  a <> NaN -> a = NInf \/ In NInf l -> fold_left fmin2 l a = NInf.
Proof.
  revert a. induction l as [| y l IH]; intros a Ha H.
  - destruct H as [H | []]. exact H.
  - cbn [fold_left]. apply IH.
    + unfold fmin2. destruct y, a; simpl; try congruence;
        destruct (Rltb _ _); congruence.
    + destruct H as [-> | [-> | H]].
      * left. unfold fmin2. destruct y; reflexivity.
      * left. unfold fmin2. destruct a; simpl; congruence.
      * right. exact H.
Qed.

Lemma fold_fmin2_Fin (l : list R) (a : R) :
  fold_left fmin2 (map Fin l) (Fin a) = Fin (fold_left Rmin l a).
Proof.
  revert a. induction l as [| y l IH]; intros a; [reflexivity |].
  cbn [map fold_left].
  assert (E : fmin2 (Fin a) (Fin y) = Fin (Rmin a y)).
  { unfold fmin2. cbn [fltb].
    destruct (Rltb_spec y a) as [H | H]; f_equal;
      [rewrite Rmin_right | rewrite Rmin_left]; lra. }
  rewrite E. apply IH.
Qed.

Lemma drawdown_term_nonzero_peak (r : R * R) :
  snd r <> 0 -> drawdown_term r = Fin (drawdown_ratio r).
Proof. intros H. unfold drawdown_term. apply fdiv_Fin. exact H. Qed.

Lemma drawdown_term_zero_peak (r : R * R) :
  snd r = 0 -> fst r <= snd r ->
  drawdown_term r = if Rltb (fst r) 0 then NInf else NaN.
Proof.
  intros Hp Hle. unfold drawdown_term. rewrite Hp, fdiv_zero.
  unfold signed_inf. rewrite Hp in Hle.
  destruct (Rltb_spec (fst r) 0) as [H | H]; rdecide; reflexivity.
Qed.

Lemma dropna_terms_no_zero_peak_loss (rows : list (R * R)) :
  Forall (fun r => fst r <= snd r) rows ->
  existsb below_zero_peak rows = false ->
  dropna (map drawdown_term rows)
  = map Fin (map drawdown_ratio
                 (filter (fun r => negb (Reqb (snd r) 0)) rows)).
Proof.
  unfold dropna.
  induction 1 as [| r rows Hr _ IH]; intros Hex; [reflexivity |].
  cbn [existsb] in Hex. apply orb_false_iff in Hex.
  destruct Hex as [Hb Hex]. specialize (IH Hex).
  cbn [map filter]. unfold below_zero_peak in Hb.
  destruct (Reqb_spec (snd r) 0) as [Hp | Hp].
  - rewrite drawdown_term_zero_peak by assumption.
    simpl in Hb. rewrite Hb. simpl. exact IH.
  - rewrite drawdown_term_nonzero_peak by exact Hp.
    simpl. rewrite IH. reflexivity.
Qed.

Lemma dropna_terms_zero_peak_loss (rows : list (R * R)) :
  Forall (fun r => fst r <= snd r) rows ->
  existsb below_zero_peak rows = true ->
  In NInf (dropna (map drawdown_term rows)).
Proof.
  intros Hrows Hex. apply existsb_exists in Hex.
  destruct Hex as [r [Hin Hb]]. unfold below_zero_peak in Hb.
  apply andb_true_iff in Hb. destruct Hb as [Hp Hc].
  destruct (Reqb_spec (snd r) 0) as [Hp' | ]; [| discriminate Hp].
  assert (Hle : fst r <= snd r)
    by (rewrite Forall_forall in Hrows; apply Hrows; exact Hin).
  unfold dropna. apply filter_In. split.
  - apply in_map_iff. exists r. split; [| exact Hin].
    rewrite drawdown_term_zero_peak by assumption. rewrite Hc. reflexivity.
  - reflexivity.
Qed.

Lemma dropna_no_nan_head (l : list float64) (x : float64) (t : list float64) :
  dropna l = x :: t -> x <> NaN.
Proof.
  intros H Hx. assert (Hin : In x (dropna l)) by (rewrite H; left; reflexivity).
  unfold dropna in Hin. apply filter_In in Hin. destruct Hin as [_ Hn].
  rewrite Hx in Hn. discriminate Hn.
Qed.

(** What [calculate_maximum_drawdown] returns on a finite series. *)
Lemma maximum_drawdown_Fin (cum : list R) :
  calculate_maximum_drawdown (map Fin cum)
  = if existsb below_zero_peak (drawdown_rows cum) then NInf
    else spec_maximum_drawdown cum.
Proof.
  unfold calculate_maximum_drawdown. rewrite drawdown_series_Fin.
  rewrite series_min_unfold.
  pose proof (rows_below_peak cum) as Hrows.
  destruct (existsb below_zero_peak (drawdown_rows cum)) eqn:Hex.
  - pose proof (dropna_terms_zero_peak_loss _ Hrows Hex) as Hin.
    destruct (dropna (map drawdown_term (drawdown_rows cum)))
      as [| x t] eqn:Hd; [destruct Hin |].
    apply fold_fmin2_NInf.
    + exact (dropna_no_nan_head _ _ _ Hd).
    + destruct Hin as [Hx | Hin]; [left; exact Hx | right; exact Hin].
  - rewrite (dropna_terms_no_zero_peak_loss _ Hrows Hex).
    unfold spec_maximum_drawdown.
    destruct (map drawdown_ratio _) as [| x t]; [reflexivity |].
    cbn [map]. apply fold_fmin2_Fin.
Qed.

Ltac eval_drawdown :=
  rewrite maximum_drawdown_Fin;
  unfold spec_maximum_drawdown, drawdown_rows, running_max;
  cbn [running_max_from combine]; rminmax;
  unfold below_zero_peak;
  cbn [existsb filter fst snd]; rdecide;
  cbn [andb orb negb filter map fold_left fst snd]; unfold drawdown_ratio;
  cbn [fst snd]; rminmax.

Lemma example_maximum_drawdown :
  calculate_maximum_drawdown
    (calculate_cumulative_returns (PriceSeries [100; 110; 99]))
  = Fin (- 11 / 10).
Proof.
  rewrite example_cumulative_returns.
  change [Fin 0; Fin (1 / 10); Fin (- 1 / 100)]
    with (map Fin [0; 1 / 10; - 1 / 100]).
  eval_drawdown. fin_eq.
Qed.

Lemma falling_prices_cumulative_returns :
  calculate_cumulative_returns (PriceSeries [100; 50; 200; 150])
  = map Fin [0; - 1 / 2; 1; 1 / 2].
Proof.
  unfold calculate_cumulative_returns.
  rewrite simple_returns_nonzero by (repeat constructor; lra).
  unfold spec_returns. rewrite spec_returns_from_nonzero
    by (repeat constructor; lra).
  unfold cumprod.
  cbn [ratios_from map cumprod_from fadd is_nan fmul fsub].
  fin_list.
Qed.

(** C3.  The specification leaves out every index whose peak is 0 and
    returns the minimum of the other terms.  [calculate_maximum_drawdown]
    divides by the peak without a guard, and [min] only skips [NaN]: when
    prices fall before they first rise the term on the zero peak is minus
    infinity and it is returned.  For the prices 100, 50, 200, 150 the
    cumulative returns are 0, -0.5, 1, 0.5; at index 1 the peak is 0 and the
    term is [-0.5 / 0]: the code returns minus infinity, where the minimum
    over the indexes with a nonzero peak is -0.5. *)
Theorem maximum_drawdown_zero_peak_not_excluded :
  calculate_maximum_drawdown
    (calculate_cumulative_returns (PriceSeries [100; 50; 200; 150]))
  = NInf
  /\ spec_maximum_drawdown [0; - 1 / 2; 1; 1 / 2] = Fin (- 1 / 2)
  /\ calculate_maximum_drawdown (map Fin [0; - 1 / 2; 1; 1 / 2])
     <> spec_maximum_drawdown [0; - 1 / 2; 1; 1 / 2].
Proof.
  assert (Hcode : calculate_maximum_drawdown (map Fin [0; - 1 / 2; 1; 1 / 2])
                  = NInf) by (eval_drawdown; reflexivity).
  assert (Hspec : spec_maximum_drawdown [0; - 1 / 2; 1; 1 / 2]
                  = Fin (- 1 / 2)).
  { unfold spec_maximum_drawdown, drawdown_rows, running_max.
    cbn [running_max_from combine]. rminmax.
    cbn [filter fst snd]. rdecide.
    cbn [negb map fold_left]. unfold drawdown_ratio. cbn [fst snd].
    rminmax. fin_eq. }
  split; [| split].
  - rewrite falling_prices_cumulative_returns. exact Hcode.
  - exact Hspec.
  - rewrite Hcode, Hspec. intros H. discriminate H.
Qed.

Lemma example_no_zero_peak_loss :
  existsb below_zero_peak (drawdown_rows [0; 1 / 10; - 1 / 100]) = false.
Proof.
  unfold drawdown_rows, running_max. cbn [running_max_from combine]. rminmax.
  unfold below_zero_peak. cbn [existsb fst snd]. rdecide. reflexivity.
Defined.

(** Where no index has a peak of 0 above a negative cumulative return, the
    code and the specification agree: [calculate_maximum_drawdown] returns
    the minimum over [i] of [(cum[i] - peak[i]) / peak[i]], [peak] the
    running maximum of [cum], the indexes with a peak of 0 left out ([NaN]
    when none is left).  For the prices 100, 110, 99 the result is -1.10. *)
Lemma maximum_drawdown_formula (cum : list R) :
  existsb below_zero_peak (drawdown_rows cum) = false ->
  calculate_maximum_drawdown (map Fin cum) = spec_maximum_drawdown cum
  /\ calculate_maximum_drawdown
       (calculate_cumulative_returns (PriceSeries [100; 110; 99]))
     = Fin (- 11 / 10).
Proof.
  intros H. split; [| exact example_maximum_drawdown].
  rewrite maximum_drawdown_Fin, H. reflexivity.
Qed.

Lemma maximum_drawdown_formula_witness :
  existsb below_zero_peak (drawdown_rows [0; 1 / 10; - 1 / 100]) = false
  /\ calculate_maximum_drawdown (map Fin [0; 1 / 10; - 1 / 100])
     = spec_maximum_drawdown [0; 1 / 10; - 1 / 100].
Proof.
  split; [exact example_no_zero_peak_loss |].
  exact (proj1 (maximum_drawdown_formula [0; 1 / 10; - 1 / 100]
                  example_no_zero_peak_loss)).
Defined.

(** ** Value at risk *)

Lemma insert_sorted_Fin (x : R) (l : list R) :
  insert_sorted (Fin x) (map Fin l) = map Fin (Rinsert x l).
Proof.
  induction l as [| y l IH]; [reflexivity |].
  cbn [map insert_sorted Rinsert fleb].
  destruct (Rleb x y); [reflexivity |].
  rewrite IH. reflexivity.
Qed.

Lemma sort_values_Fin (l : list R) :
  sort_values (map Fin l) = map Fin (Rsort l).
Proof.
  unfold sort_values, Rsort. induction l as [| x l IH]; [reflexivity |].
  cbn [map fold_right]. rewrite IH. apply insert_sorted_Fin.
Qed.

Lemma Rinsert_length (x : R) (l : list R) :
  length (Rinsert x l) = S (length l).
Proof.
  induction l as [| y l IH]; [reflexivity |].
  cbn [Rinsert]. destruct (Rleb x y); simpl; [reflexivity |].
  rewrite IH. reflexivity.
Qed.

Lemma Rsort_length (l : list R) : length (Rsort l) = length l.
Proof.
  unfold Rsort. induction l as [| x l IH]; [reflexivity |].
  cbn [fold_right]. rewrite Rinsert_length, IH. reflexivity.
Qed.

Lemma nth_map_Fin (j : nat) (v : list R) :
  (j < length v)%nat -> nth j (map Fin v) NaN = Fin (nth j v 0).
Proof.
  intros H. rewrite (nth_indep _ NaN (Fin 0)) by (rewrite length_map; exact H).
  apply (map_nth Fin).
Qed.

(** The integer part of a virtual index stays within the sample. *)
Lemma virtual_index_bound (q : R) (k : nat) :
  0 <= q <= 1 -> (Z.to_nat (Int_part (q * INR k)) <= k)%nat.
Proof.
  intros [Hq0 Hq1].
  pose proof (pos_INR k) as Hk.
  destruct (base_Int_part (q * INR k)) as [Hlo _].
  assert (Hle : IZR (Int_part (q * INR k)) <= IZR (Z.of_nat k)).
  { rewrite <- INR_IZR_INZ. nra. }
  apply le_IZR in Hle. lia.
Qed.

Lemma series_quantile_Fin (x : R) (l : list R) (q : R) :
  0 <= q <= 1 ->
  series_quantile (map Fin (x :: l)) q = Some (Fin (Rquantile (x :: l) q)).
Proof.
  intros Hq. unfold series_quantile.
  destruct Hq as [Hq0 Hq1].
  rewrite (Rleb_true 0 q), (Rleb_true q 1) by assumption. cbn [andb].
  rewrite dropna_Fin, sort_values_Fin. unfold Rquantile.
  assert (Hlen : length (Rsort (x :: l)) = S (length l))
    by (rewrite Rsort_length; reflexivity).
  destruct (Rsort (x :: l)) as [| y v] eqn:Hs; [discriminate Hlen |].
  change (map Fin (y :: v)) with (Fin y :: map Fin v).
  cbv iota beta.
  change (Fin y :: map Fin v) with (map Fin (y :: v)).
  rewrite length_map.
  pose proof (virtual_index_bound q (length (y :: v) - 1) (conj Hq0 Hq1))
    as Hj.
  assert (Hn : length (y :: v) = S (length v)) by reflexivity.
  rewrite !nth_map_Fin by lia.
  reflexivity.
Qed.

Lemma calculate_var_nonempty (x : R) (l : list R) :
  calculate_var (map Fin (x :: l)) (95 / 100) 252
  = Some (Fin (- Rquantile (x :: l) (5 / 100) * sqrt 252)).
Proof.
  unfold calculate_var. cbn [map].
  change (Fin x :: map Fin l) with (map Fin (x :: l)).
  replace (1 - 95 / 100) with (5 / 100) by lra.
  rewrite series_quantile_Fin by lra.
  rewrite fsqrt_nonneg by lra. cbn [fmul fneg]. do 2 f_equal. ring.
Qed.

Lemma Int_part_unit (r : R) : 0 <= r < 1 -> Int_part r = 0%Z.
Proof.
  intros H. symmetry. apply Int_part_spec. simpl. lra.
Qed.

Ltac eval_Rsort :=
  unfold Rsort; cbn [fold_right];
  repeat (cbn [Rinsert]; rdecide).

Lemma example_sorted :
  Rsort example_returns_var
  = [- 2 / 100; - 5 / 1000; 1 / 100; 15 / 1000; 2 / 100].
Proof. unfold example_returns_var. eval_Rsort. reflexivity. Qed.

Lemma example_quantile : Rquantile example_returns_var (5 / 100) = - 17 / 1000.
Proof.
  unfold Rquantile. rewrite example_sorted.
  cbn [length Nat.sub].
  assert (Hpos : 5 / 100 * INR 4 = 2 / 10) by (simpl; lra).
  rewrite Hpos. unfold frac_part.
  rewrite (Int_part_unit (2 / 10)) by lra.
  simpl. lra.
Qed.

Lemma sqrt_252_bounds : 15874 / 1000 < sqrt 252 < 15875 / 1000.
Proof.
  split.
  - rewrite <- (sqrt_square (15874 / 1000)) by lra.
    apply sqrt_lt_1_alt. lra.
  - rewrite <- (sqrt_square (15875 / 1000)) by lra.
    apply sqrt_lt_1_alt. lra.
Qed.

Lemma example_var :
  calculate_var (map Fin example_returns_var) (95 / 100) 252
  = Some (Fin (17 / 1000 * sqrt 252)).
Proof.
  unfold example_returns_var at 1.
  rewrite calculate_var_nonempty.
  fold example_returns_var. rewrite example_quantile.
  do 2 f_equal. lra.
Qed.

(** C4, as stated, fails on its own example: for the returns 0.01, -0.02,
    0.015, -0.005, 0.02 the code returns [0.017 * sqrt(252)], about 0.2699
    and below 0.27, which is not 0.3175 to within 0.01: the 5% quantile is
    interpolated between the two lowest returns, it is not the lowest one. *)
Lemma value_at_risk_example_is_not_03175 :
  calculate_var (map Fin example_returns_var) (95 / 100) 252
  = Some (Fin (17 / 1000 * sqrt 252))
  /\ 17 / 1000 * sqrt 252 < 27 / 100
  /\ ~ Rabs (17 / 1000 * sqrt 252 - 3175 / 10000) <= 1 / 100.
Proof.
  pose proof sqrt_252_bounds as [Hlo Hhi].
  split; [exact example_var |].
  split; [lra |].
  intros H. rewrite Rabs_left in H by lra. lra.
Qed.

(** C4 (amended).  For every non-empty finite return series,
    [calculate_var] at confidence 0.95 returns the negated 5% quantile,
    interpolated linearly between order statistics, times [sqrt(252)]; for
    the empty series it returns [NaN].  On the returns 0.01, -0.02, 0.015,
    -0.005, 0.02 the 5% quantile is -0.017 and the annualized value at risk
    is [0.017 * sqrt(252)], between 0.2698 and 0.2699. *)
Theorem value_at_risk_formula (x : R) (l : list R) :
  calculate_var (map Fin (x :: l)) (95 / 100) 252
  = Some (Fin (- Rquantile (x :: l) (5 / 100) * sqrt 252))
  /\ calculate_var [] (95 / 100) 252 = Some NaN
  /\ Rquantile example_returns_var (5 / 100) = - 17 / 1000
  /\ calculate_var (map Fin example_returns_var) (95 / 100) 252
     = Some (Fin (17 / 1000 * sqrt 252))
  /\ 2698 / 10000 < 17 / 1000 * sqrt 252 < 2699 / 10000.
Proof.
  pose proof sqrt_252_bounds as [Hlo Hhi].
  split; [apply calculate_var_nonempty |].
  split; [reflexivity |].
  split; [exact example_quantile |].
  split; [exact example_var | lra].
Qed.

(** ** Sortino ratio *)

Lemma series_mean_Fin_nonempty (l : list R) :
  l <> [] -> series_mean (map Fin l) = Fin (Rmean l).
Proof.
  destruct l as [| x l]; [congruence |]. intros _. apply series_mean_Fin.
Qed.

Lemma Rsum_nonneg (l : list R) : Forall (fun x => 0 <= x) l -> 0 <= Rsum l.
Proof. induction 1 as [| x l Hx _ IH]; simpl; lra. Qed.

Lemma Rmean_squares_nonneg (l : list R) :
  0 <= Rmean (map (fun y => y * y) l).
Proof.
  unfold Rmean.
  assert (Hs : 0 <= Rsum (map (fun y => y * y) l)).
  { apply Rsum_nonneg. apply Forall_forall. intros z Hz.
    apply in_map_iff in Hz. destruct Hz as [y [<- _]].
    pose proof (Rle_0_sqr y) as H. unfold Rsqr in H. exact H. }
  destruct (map (fun y => y * y) l) as [| z k].
  - simpl. lra.
  - apply Rmult_le_pos; [exact Hs |].
    left. apply Rinv_0_lt_compat. apply INR_length_cons_pos.
Qed.

Lemma np_minimum_zero_Fin (y : R) :
  np_minimum (Fin y) (Fin 0) = Fin (Rmin y 0).
Proof.
  unfold np_minimum. cbn [fltb].
  destruct (Rltb_spec 0 y) as [H | H]; f_equal;
    [rewrite Rmin_right | rewrite Rmin_left]; lra.
Qed.

Lemma map_Fin_compose (f : float64 -> float64) (g : R -> R) (l : list R) :
  (forall y, f (Fin y) = Fin (g y)) ->
  map f (map Fin l) = map Fin (map g l).
Proof.
  intros H. rewrite !map_map. apply map_ext. exact H.
Qed.

Lemma sortino_ratio_Fin (x : R) (l : list R) (rf : R) :
  calculate_sortino_ratio (map Fin (x :: l)) rf
  = if Reqb (downside_deviation rf (x :: l)) 0 then NaN
    else Fin (Rmean (excess_over rf (x :: l)) * 252
              / downside_deviation rf (x :: l)).
Proof.
  unfold calculate_sortino_ratio, np_mean.
  rewrite (map_Fin_compose _ (fun y => y - rf / 252)) by reflexivity.
  fold (excess_over rf (x :: l)).
  rewrite (map_Fin_compose _ (fun y => Rmin y 0))
    by exact np_minimum_zero_Fin.
  rewrite (map_Fin_compose fsqr (fun y => y * y)) by reflexivity.
  rewrite !series_mean_Fin_nonempty by (unfold excess_over; discriminate).
  rewrite fsqrt_nonneg by apply Rmean_squares_nonneg.
  rewrite sqrt_252_eq. cbn [fmul]. fold (downside_deviation rf (x :: l)).
  unfold fneb. cbn [feqb].
  destruct (Reqb_spec (downside_deviation rf (x :: l)) 0) as [Hz | Hz];
    cbn [negb]; [reflexivity |].
  apply fdiv_Fin. exact Hz.
Qed.

(** Returns that never fall below the daily risk-free rate have no downside:
    the guard of the code answers [NaN]. *)
Lemma sortino_ratio_no_downside :
  calculate_sortino_ratio [Fin (1 / 100)] default_risk_free_rate = NaN.
Proof.
  change [Fin (1 / 100)] with (map Fin [1 / 100]).
  rewrite sortino_ratio_Fin.
  assert (Hd : downside_deviation default_risk_free_rate [1 / 100] = 0).
  { unfold downside_deviation, excess_over, default_risk_free_rate, Rmean.
    cbn [map length Rsum]. rminmax.
    replace ((0 * 0 + 0) / INR 1) with 0 by (simpl; field).
    rewrite sqrt_0. ring. }
  rewrite Hd, Reqb_true by reflexivity. reflexivity.
Qed.

(** C7.  For every non-empty finite return series [r] and risk-free rate
    [rf], [calculate_sortino_ratio] returns
    [mean(r - rf/252) * 252 / downside_deviation] with
    [downside_deviation = sqrt(mean(min(r - rf/252, 0)^2)) * sqrt(252)],
    and [NaN] whenever the downside deviation is 0. *)
Theorem sortino_ratio_formula (x : R) (l : list R) (rf : R) :
  calculate_sortino_ratio (map Fin (x :: l)) rf
  = if Reqb (downside_deviation rf (x :: l)) 0 then NaN
    else Fin (Rmean (excess_over rf (x :: l)) * 252
              / downside_deviation rf (x :: l)).
Proof. apply sortino_ratio_Fin. Qed.

(** ** Alpha and beta *)

Lemma calculate_alpha_beta_rows (p b : Series) :
  calculate_alpha_beta p b = alpha_beta_of_rows (aligned_rows p b).
Proof. reflexivity. Qed.

Lemma lookup_Some_get (t : Z) (s : Series) (y : float64) :
  lookup t s = Some y -> get t s = y /\ has_key t s = true.
Proof. intros H. unfold get, has_key. rewrite H. split; reflexivity. Qed.

Lemma has_key_lookup (t : Z) (s : Series) :
  has_key t s = true -> exists y, lookup t s = Some y.
Proof.
  unfold has_key. destruct (lookup t s) as [y |]; [| discriminate].
  intros _. exists y. reflexivity.
Qed.

Lemma combine_values_aligned (a b : Series) :
  combine (values a) (values (map (fun q => (fst q, get (fst q) b)) a))
  = map (fun q => (snd q, get (fst q) b)) a.
Proof.
  unfold values. induction a as [| q a IH]; [reflexivity |].
  cbn [map combine fst snd]. f_equal. exact IH.
Qed.

(** The valid rows are the pairs of non-missing values that the two series
    hold at a common timestamp. *)
Lemma aligned_rows_spec (p b : Series) (x y : float64) :
  In (x, y) (aligned_rows p b)
  <-> exists t, In (t, x) p /\ lookup t b = Some y
                /\ is_nan x = false /\ is_nan y = false.
Proof.
  unfold aligned_rows, align_inner, concat_dropna.
  rewrite combine_values_aligned, filter_In, in_map_iff. split.
  - intros [[[t x'] [Heq Hin]] Hnan]. cbn [fst snd] in *.
    apply filter_In in Hin. destruct Hin as [Hin Hkey]. cbn [fst] in Hkey.
    destruct (has_key_lookup _ _ Hkey) as [y' Hy'].
    destruct (lookup_Some_get _ _ _ Hy') as [Hget _].
    inversion Heq; subst x' y. rewrite Hget in *.
    apply andb_true_iff in Hnan. destruct Hnan as [Hx Hy].
    apply negb_true_iff in Hx, Hy.
    exists t. repeat split; assumption.
  - intros [t [Hin [Hy [Hx Hny]]]].
    destruct (lookup_Some_get _ _ _ Hy) as [Hget Hkey].
    split.
    + exists (t, x). cbn [fst snd]. rewrite Hget. split; [reflexivity |].
      apply filter_In. split; assumption.
    + cbn [fst snd]. rewrite Hx, Hny. reflexivity.
Qed.

Lemma map_fst_fin_row (rows : list (R * R)) :
  map fst (map fin_row rows) = map Fin (map fst rows).
Proof. rewrite !map_map. reflexivity. Qed.

Lemma map_snd_fin_row (rows : list (R * R)) :
  map snd (map fin_row rows) = map Fin (map snd rows).
Proof. rewrite !map_map. reflexivity. Qed.

Lemma combine_fst_snd_rows {A B : Type} (rows : list (A * B)) :
  combine (map fst rows) (map snd rows) = rows.
Proof.
  induction rows as [| [a b] rows IH]; [reflexivity |].
  simpl. rewrite IH. reflexivity.
Qed.

Lemma np_cov01_Fin (rows : list (R * R)) :
  (2 <= length rows)%nat ->
  np_cov01 (map Fin (map fst rows)) (map Fin (map snd rows))
  = Fin (sample_cov (map fst rows) (map snd rows)).
Proof.
  intros Hlen. unfold np_cov01, sample_cov.
  rewrite !fsum_Fin, !length_map.
  assert (Hn : 0 < INR (length rows)) by (apply lt_0_INR; lia).
  assert (Hd : 0 < INR (length rows - 1)) by (apply lt_0_INR; lia).
  rewrite !fdiv_Fin by lra.
  destruct (Nat.leb_spec (length rows) 1) as [Hle | _]; [lia |].
  rewrite fdiv_Fin by lra.
  rewrite zip_with_Fin, combine_fst_snd_rows.
  unfold Rmean. rewrite !length_map.
  set (mx := Rsum (map fst rows) / INR (length rows)).
  set (my := Rsum (map snd rows) / INR (length rows)).
  replace (map (fun r => fmul (fsub (Fin (fst r)) (Fin mx))
                              (fsub (Fin (snd r)) (Fin my))) rows)
    with (map Fin (map (fun r => (fst r - mx) * (snd r - my)) rows))
    by (rewrite map_map; reflexivity).
  rewrite fsum_Fin. cbn [fmul]. f_equal. field. lra.
Qed.

Lemma alpha_beta_of_fin_rows (rows : list (R * R)) :
  alpha_beta_of_rows (map fin_row rows) = alpha_beta_of_finite_rows rows.
Proof.
  unfold alpha_beta_of_rows, alpha_beta_of_finite_rows. rewrite length_map.
  destruct (Nat.ltb_spec (length rows) 2) as [Hlt | Hge]; [reflexivity |].
  cbv zeta. rewrite map_fst_fin_row, map_snd_fin_row.
  rewrite np_var_Fin by (rewrite length_map; lia). cbn [feqb].
  destruct (Reqb_spec (population_var (map snd rows)) 0) as [Hz | Hz];
    [reflexivity |].
  rewrite np_cov01_Fin by exact Hge. rewrite fdiv_Fin by exact Hz.
  unfold np_mean.
  rewrite !series_mean_Fin_nonempty
    by (destruct rows; [simpl in Hge; lia | discriminate]).
  reflexivity.
Qed.

Lemma alpha_beta_few_rows (p b : Series) :
  (length (aligned_rows p b) < 2)%nat ->
  calculate_alpha_beta p b = (NaN, NaN).
Proof.
  intros H. rewrite calculate_alpha_beta_rows. unfold alpha_beta_of_rows.
  destruct (Nat.ltb_spec (length (aligned_rows p b)) 2) as [_ | Hge];
    [reflexivity | lia].
Qed.

Lemma alpha_beta_zero_variance (p b : Series) :
  np_var (map snd (aligned_rows p b)) = Fin 0 ->
  calculate_alpha_beta p b = (NaN, NaN).
Proof.
  intros H. rewrite calculate_alpha_beta_rows. unfold alpha_beta_of_rows.
  destruct (length (aligned_rows p b) <? 2)%nat; [reflexivity |].
  cbv zeta. rewrite H. cbn [feqb]. rewrite Reqb_true by reflexivity.
  reflexivity.
Qed.

(** What the code computes: [calculate_alpha_beta] works on the inner join of
    the two series without the rows that hold a missing value.  With fewer
    than two such rows, or a benchmark of variance 0, it returns [NaN] for
    alpha and for beta; otherwise, on finite rows, beta is the sample
    covariance over the population variance and
    [alpha = (mean(r) - beta * mean(b)) * 252]. *)
Lemma alpha_beta_on_aligned_rows (p b : Series) :
  let rows := aligned_rows p b in
  (forall x y,
      In (x, y) rows
      <-> exists t, In (t, x) p /\ lookup t b = Some y
                    /\ is_nan x = false /\ is_nan y = false)
  /\ ((length rows < 2)%nat -> calculate_alpha_beta p b = (NaN, NaN))
  /\ (np_var (map snd rows) = Fin 0 -> calculate_alpha_beta p b = (NaN, NaN))
  /\ (forall finite_rows,
         rows = map fin_row finite_rows ->
         calculate_alpha_beta p b = alpha_beta_of_finite_rows finite_rows).
Proof.
  cbv zeta. split; [exact (aligned_rows_spec p b) |].
  split; [exact (alpha_beta_few_rows p b) |].
  split; [exact (alpha_beta_zero_variance p b) |].
  intros finite_rows H. rewrite calculate_alpha_beta_rows, H.
  apply alpha_beta_of_fin_rows.
Qed.

(** The sample covariance is the population covariance times [n / (n - 1)]. *)
Lemma sample_cov_population_cov (xs ys : list R) :
  (2 <= length xs)%nat ->
  sample_cov xs ys
  = INR (length xs) / INR (length xs - 1) * population_cov xs ys.
Proof.
  intros Hlen. unfold sample_cov, population_cov.
  assert (Hn : 0 < INR (length xs)) by (apply lt_0_INR; lia).
  assert (Hd : 0 < INR (length xs - 1)) by (apply lt_0_INR; lia).
  field. split; lra.
Qed.

(** The slope [cov / var] is the same on either divisor. *)
Lemma slope_divisor_free (xs ys : list R) :
  (2 <= length xs)%nat -> length ys = length xs -> sum_sq_dev ys <> 0 ->
  sample_cov xs ys / sample_var ys = population_cov xs ys / population_var ys.
Proof.
  intros Hlen Hy Hs. unfold sample_cov, population_cov, sample_var,
    population_var. rewrite Hy.
  assert (Hn : 0 < INR (length xs)) by (apply lt_0_INR; lia).
  assert (Hd : 0 < INR (length xs - 1)) by (apply lt_0_INR; lia).
  field. repeat split; lra.
Qed.

(** Wherever [calculate_alpha_beta] computes a beta on finite rows, it is the
    slope of the specification times [n / (n - 1)], [n] the number of rows:
    the covariance and the variance are not on one divisor. *)
Lemma beta_scaled_slope (p b : Series) (rows : list (R * R)) :
  aligned_rows p b = map fin_row rows ->
  (2 <= length rows)%nat -> population_var (map snd rows) <> 0 ->
  snd (calculate_alpha_beta p b)
  = Fin (INR (length rows) / INR (length rows - 1)
         * (population_cov (map fst rows) (map snd rows)
            / population_var (map snd rows)))
  /\ snd (spec_alpha_beta rows)
     = Fin (population_cov (map fst rows) (map snd rows)
            / population_var (map snd rows)).
Proof.
  intros Hrows Hlen Hvar.
  rewrite calculate_alpha_beta_rows, Hrows, alpha_beta_of_fin_rows.
  unfold alpha_beta_of_finite_rows, spec_alpha_beta.
  destruct (Nat.ltb_spec (length rows) 2) as [Hlt | _]; [lia |].
  rewrite Reqb_false by exact Hvar. cbv zeta. cbn [snd].
  rewrite sample_cov_population_cov by (rewrite length_map; exact Hlen).
  rewrite length_map. split; [f_equal; unfold Rdiv; ring | reflexivity].
Qed.

Lemma example_aligned_rows :
  aligned_rows example_portfolio example_benchmark
  = map fin_row example_rows.
Proof.
  unfold aligned_rows, align_inner, concat_dropna, example_portfolio,
    example_benchmark, example_rows, values, has_key, get, fin_row.
  cbn [filter lookup Z.eqb Pos.eqb map fst snd combine is_nan negb andb].
  reflexivity.
Defined.

Lemma INR_2 : INR 2 = 2.
Proof. simpl. lra. Qed.

Lemma example_code_alpha_beta :
  alpha_beta_of_finite_rows example_rows = (Fin (- 1008 / 100), Fin 2).
Proof.
  unfold alpha_beta_of_finite_rows, example_rows, population_var, sample_cov,
    sum_sq_dev, Rmean.
  cbn [map length fst snd combine Rsum Nat.ltb Nat.leb Nat.sub].
  rewrite INR_2, INR_1. rdecide.
  apply f_equal2; apply f_equal; lra.
Qed.

Lemma example_alpha_beta :
  calculate_alpha_beta example_portfolio example_benchmark
  = (Fin (- 1008 / 100), Fin 2).
Proof.
  rewrite calculate_alpha_beta_rows, example_aligned_rows,
    alpha_beta_of_fin_rows.
  exact example_code_alpha_beta.
Qed.

Lemma example_spec_alpha_beta :
  spec_alpha_beta example_rows = (Fin (- 252 / 100), Fin 1).
Proof.
  unfold spec_alpha_beta, example_rows, population_var, population_cov,
    sum_sq_dev, Rmean.
  cbn [map length fst snd combine Rsum Nat.ltb Nat.leb Nat.sub].
  rewrite INR_2. rdecide.
  apply f_equal2; apply f_equal; lra.
Qed.

Lemma example_sample_slope :
  sample_cov (map fst example_rows) (map snd example_rows)
  / sample_var (map snd example_rows) = 1.
Proof.
  unfold example_rows, sample_var, sample_cov, sum_sq_dev, Rmean.
  cbn [map length fst snd combine Rsum Nat.sub].
  rewrite INR_2, INR_1. lra.
Qed.

(** C5.  The specification gives beta as [cov(r, b) / var(b)], the slope of
    the portfolio returns regressed on the benchmark returns.
    [calculate_alpha_beta] divides the sample covariance of [np.cov] (divisor
    [n - 1]) by the population variance of [np.var] (divisor [n]).  On the
    two aligned rows (0.01, 0.02) and (0.03, 0.04) the portfolio is the
    benchmark minus 0.01, the slope is 1 on either divisor and the alpha of
    the specification is -2.52; the code returns beta 2 and alpha -10.08. *)
Theorem alpha_beta_divisors_differ :
  aligned_rows example_portfolio example_benchmark = map fin_row example_rows
  /\ calculate_alpha_beta example_portfolio example_benchmark
     = (Fin (- 1008 / 100), Fin 2)
  /\ spec_alpha_beta example_rows = (Fin (- 252 / 100), Fin 1)
  /\ sample_cov (map fst example_rows) (map snd example_rows)
     / sample_var (map snd example_rows) = 1
  /\ calculate_alpha_beta example_portfolio example_benchmark
     <> spec_alpha_beta example_rows.
Proof.
  split; [exact example_aligned_rows |].
  split; [exact example_alpha_beta |].
  split; [exact example_spec_alpha_beta |].
  split; [exact example_sample_slope |].
  rewrite example_alpha_beta, example_spec_alpha_beta.
  intros H. injection H as _ H. lra.
Qed.

(** ** Tracking error and information ratio *)

(** The reductions only see the non-missing values. *)
Lemma series_var_dropna (ddof : nat) (l : list float64) (k : list R) :
  dropna l = map Fin k -> series_var ddof l = series_var ddof (map Fin k).
Proof.
  intros H. unfold series_var. rewrite dropna_Fin, H. reflexivity.
Qed.

Lemma series_mean_dropna (l : list float64) (k : list R) :
  dropna l = map Fin k -> series_mean l = series_mean (map Fin k).
Proof.
  intros H. unfold series_mean. rewrite dropna_Fin, H. reflexivity.
Qed.

Lemma tracking_error_Fin (p b : Series) (l : list R) :
  aligned_differences p b = map Fin l ->
  (1 <= length l)%nat ->
  calculate_tracking_error p b = Fin (population_std l * sqrt 252).
Proof.
  intros H Hlen. unfold calculate_tracking_error, np_std.
  rewrite (series_var_dropna 0 _ l H).
  fold (np_std (map Fin l)). rewrite np_std_Fin by exact Hlen.
  rewrite sqrt_252_eq. reflexivity.
Qed.

Lemma information_ratio_Fin (p b : Series) (l : list R) :
  aligned_differences p b = map Fin l ->
  (1 <= length l)%nat ->
  calculate_information_ratio p b
  = fmul (fdiv (Fin (Rmean l)) (Fin (population_std l))) sqrt_252.
Proof.
  intros H Hlen. unfold calculate_information_ratio, np_std, np_mean.
  rewrite (series_var_dropna 0 _ l H), (series_mean_dropna _ l H).
  fold (np_std (map Fin l)). rewrite np_std_Fin by exact Hlen.
  rewrite series_mean_Fin_nonempty
    by (destruct l; [simpl in Hlen; lia | discriminate]).
  reflexivity.
Qed.

(** With a single aligned point the population deviation is 0: the tracking
    error is the number 0 and the information ratio divides by zero. *)
Lemma tracking_error_single_point (p b : Series) (d : R) :
  aligned_differences p b = [Fin d] ->
  calculate_tracking_error p b = Fin 0
  /\ calculate_information_ratio p b = signed_inf d.
Proof.
  intros H. change [Fin d] with (map Fin [d]) in H. split.
  - rewrite (tracking_error_Fin p b [d] H) by (simpl; lia).
    rewrite population_std_single. f_equal. ring.
  - rewrite (information_ratio_Fin p b [d] H) by (simpl; lia).
    rewrite population_std_single, fdiv_zero, sqrt_252_eq.
    replace (Rmean [d]) with d by (unfold Rmean; simpl; field).
    apply signed_inf_scale. exact sqrt_252_pos.
Qed.

Lemma single_point_differences (t : Z) (x y : R) :
  aligned_differences [(t, Fin x)] [(t, Fin y)] = [Fin (x - y)].
Proof.
  unfold aligned_differences, series_sub, values, get, has_key.
  cbn [map filter lookup fst snd]. rewrite Z.eqb_refl. reflexivity.
Qed.

(** C6.  The specification asks that tracking error and information ratio
    check for fewer than two aligned points and return the not-computable
    marker.  Neither function has the check: for a portfolio and a benchmark
    with the single common point 0.01 against 0.02, the tracking error is
    the number 0 and the information ratio is minus infinity. *)
Theorem tracking_error_single_point_unguarded :
  calculate_tracking_error [(1%Z, Fin (1 / 100))] [(1%Z, Fin (2 / 100))]
  = Fin 0
  /\ calculate_information_ratio
       [(1%Z, Fin (1 / 100))] [(1%Z, Fin (2 / 100))]
     = NInf.
Proof.
  destruct (tracking_error_single_point _ _ _
              (single_point_differences 1 (1 / 100) (2 / 100)))
    as [Hte Hir].
  split; [exact Hte |].
  rewrite Hir. unfold signed_inf. rdecide. reflexivity.
Qed.

(** ** Volatility *)

Lemma annual_volatility_Fin (l : list R) :
  (2 <= length l)%nat ->
  calculate_annual_volatility (map Fin l) = Fin (sample_std l * sqrt 252).
Proof.
  intros Hlen. unfold calculate_annual_volatility.
  rewrite series_std_Fin by exact Hlen. rewrite sqrt_252_eq. reflexivity.
Qed.

Lemma annual_volatility_single (x : R) :
  calculate_annual_volatility [Fin x] = NaN.
Proof. reflexivity. Qed.

Lemma np_std_single (x : R) : np_std [Fin x] = Fin 0.
Proof.
  change [Fin x] with (map Fin [x]). rewrite np_std_Fin by (simpl; lia).
  rewrite population_std_single. reflexivity.
Qed.

(** C10.  [calculate_annual_volatility] uses the sample standard deviation
    (divisor [n - 1], missing for a single point), while
    [calculate_tracking_error] and [calculate_information_ratio] use the
    population standard deviation (divisor [n], 0 for a single point).  For
    every finite series [l] of length [n >= 2], taken as returns by the one
    and as aligned differences by the others, the deviation behind the
    tracking error is the one behind the volatility times
    [sqrt((n - 1) / n)], hence no larger. *)
Theorem stdev_conventions (l : list R) (p b : Series) (x : R) :
  (2 <= length l)%nat ->
  aligned_differences p b = map Fin l ->
  calculate_annual_volatility (map Fin l) = Fin (sample_std l * sqrt 252)
  /\ calculate_tracking_error p b = Fin (population_std l * sqrt 252)
  /\ calculate_information_ratio p b
     = fmul (fdiv (Fin (Rmean l)) (Fin (population_std l))) sqrt_252
  /\ calculate_annual_volatility [Fin x] = NaN
  /\ np_std [Fin x] = Fin 0
  /\ population_std l
     = sample_std l * sqrt (INR (length l - 1) / INR (length l))
  /\ population_std l <= sample_std l.
Proof.
  intros Hlen Hd.
  split; [apply annual_volatility_Fin; exact Hlen |].
  split; [apply tracking_error_Fin; [exact Hd | lia] |].
  split; [apply information_ratio_Fin; [exact Hd | lia] |].
  split; [apply annual_volatility_single |].
  split; [apply np_std_single |].
  split; [apply population_sample_std | apply population_le_sample_std];
    exact Hlen.
Qed.

Lemma example_aligned_differences :
  aligned_differences
    [(1%Z, Fin (1 / 100)); (2%Z, Fin (3 / 100))]
    [(1%Z, Fin (2 / 100)); (2%Z, Fin (1 / 100))]
  = map Fin example_differences.
Proof.
  unfold aligned_differences, series_sub, values, get, has_key, dropna.
  cbn [map filter lookup fst snd Z.eqb Pos.eqb app fsub is_nan negb].
  reflexivity.
Defined.

Lemma stdev_conventions_witness :
  (2 <= length example_differences)%nat
  /\ calculate_annual_volatility (map Fin example_differences)
     = Fin (sample_std example_differences * sqrt 252)
  /\ calculate_tracking_error
       [(1%Z, Fin (1 / 100)); (2%Z, Fin (3 / 100))]
       [(1%Z, Fin (2 / 100)); (2%Z, Fin (1 / 100))]
     = Fin (population_std example_differences * sqrt 252)
  /\ population_std example_differences
     = sample_std example_differences
       * sqrt (INR (length example_differences - 1)
               / INR (length example_differences)).
Proof.
  assert (Hlen : (2 <= length example_differences)%nat)
    by (simpl; apply le_n).
  pose proof (stdev_conventions example_differences _ _ 0 Hlen
                example_aligned_differences) as H.
  split; [exact Hlen |].
  split; [exact (proj1 H) |].
  split; [exact (proj1 (proj2 H)) |].
  exact (proj1 (proj2 (proj2 (proj2 (proj2 (proj2 H)))))).
Defined.

(** ** Subtraction of two series with the same index *)

Lemma has_key_combine (t : Z) (ts : list Z) (xs : list float64) :
  In t ts -> length xs = length ts -> has_key t (combine ts xs) = true.
Proof.
  revert xs. induction ts as [| u ts IH]; intros [| x xs] Hin Hlen;
    simpl in Hlen; try discriminate Hlen; [destruct Hin |].
  unfold has_key. cbn [combine lookup].
  destruct (Z.eqb_spec t u) as [_ | Hne]; [reflexivity |].
  destruct Hin as [Heq | Hin]; [congruence |].
  apply (IH xs Hin). lia.
Qed.

Lemma get_skip (t u : Z) (y : float64) (b : Series) :
  t <> u -> get t ((u, y) :: b) = get t b.
Proof.
  intros Hne. unfold get. cbn [lookup].
  destruct (Z.eqb_spec t u) as [Heq | _]; [congruence | reflexivity].
Qed.

Lemma differences_same_index (ts : list Z) (xs ys : list float64) :
  NoDup ts -> length xs = length ts -> length ys = length ts ->
  map (fun q => fsub (snd q) (get (fst q) (combine ts ys))) (combine ts xs)
  = zip_with fsub xs ys.
Proof.
  intros Hnd. revert xs ys.
  induction Hnd as [| t ts Hnotin _ IH]; intros [| x xs] [| y ys] Hx Hy;
    simpl in Hx, Hy; try discriminate; [reflexivity |].
  unfold zip_with. cbn [combine map fst snd].
  f_equal.
  - unfold get. cbn [lookup]. rewrite Z.eqb_refl. reflexivity.
  - fold (zip_with fsub xs ys). rewrite <- (IH xs ys) by lia.
    apply map_ext_in. intros [u v] Hin. cbn [fst snd].
    rewrite get_skip; [reflexivity |].
    intros ->. apply Hnotin. exact (in_combine_l _ _ _ _ Hin).
Qed.

(** On two series over the same timestamps, [a - b] is the element-wise
    difference: no entry is unmatched. *)
Lemma series_sub_same_index (ts : list Z) (xs ys : list float64) :
  NoDup ts -> length xs = length ts -> length ys = length ts ->
  values (series_sub (combine ts xs) (combine ts ys)) = zip_with fsub xs ys.
Proof.
  intros Hnd Hx Hy. unfold series_sub, values.
  assert (Hnone : filter (fun q => negb (has_key (fst q) (combine ts xs)))
                         (combine ts ys) = []).
  { assert (Hall : forall q, In q (combine ts ys) ->
                             negb (has_key (fst q) (combine ts xs)) = false).
    { intros [u v] Hin. cbn [fst].
      rewrite has_key_combine; [reflexivity | | exact Hx].
      exact (in_combine_l _ _ _ _ Hin). }
    induction (combine ts ys) as [| q l IHl]; [reflexivity |].
    cbn [filter]. rewrite Hall by (left; reflexivity).
    apply IHl. intros q' Hq'. apply Hall. right. exact Hq'. }
  rewrite Hnone, app_nil_r, map_map. cbn [snd].
  apply differences_same_index; assumption.
Qed.

(** Timestamps held by one series only give a missing difference, which the
    reductions skip. *)
Lemma example_unmatched_differences :
  aligned_differences example_portfolio example_benchmark
  = [Fin (1 / 100 - 2 / 100); Fin (3 / 100 - 4 / 100)].
Proof.
  unfold aligned_differences, series_sub, values, get, has_key, dropna,
    example_portfolio, example_benchmark.
  cbn [map filter lookup fst snd Z.eqb Pos.eqb app fsub is_nan negb].
  reflexivity.
Qed.

(** * Further properties of [processing.py] *)

(** ** Cumulative returns: length and closed form *)

Lemma pct_change_from_length (prev : float64) (l : list float64) :
  length (pct_change_from prev l) = length l.
Proof.
  revert prev. induction l as [| x l IH]; intros prev; simpl;
    [reflexivity | rewrite IH; reflexivity].
Qed.

Lemma cumprod_from_length (acc : float64) (l : list float64) :
  length (cumprod_from acc l) = length l.
Proof.
  revert acc. induction l as [| x l IH]; intros acc; [reflexivity |].
  cbn [cumprod_from]. destruct (is_nan x); simpl; rewrite IH; reflexivity.
Qed.

(** X1.  The cumulative series has one entry per price, whatever the prices are:
    the first return is filled, not dropped. *)
Theorem cumulative_returns_length (P : list R) :
  length (calculate_cumulative_returns (PriceSeries P)) = length P
  /\ length (calculate_cumulative_returns (PriceFrame P)) = length P.
Proof.
  assert (H : length (calculate_cumulative_returns (PriceSeries P))
              = length P).
  { unfold calculate_cumulative_returns, simple_returns, cumprod, fillna,
      pct_change.
    rewrite !length_map, cumprod_from_length, !length_map,
      pct_change_from_length, length_map. reflexivity. }
  split; exact H.
Qed.

(** X2.  With no zero price the chained product telescopes: the cumulative return
    at each index is the price relative to the first price, minus 1. *)
Theorem cumulative_returns_closed_form (p0 : R) (P : list R) :
  Forall (fun p => p <> 0) (p0 :: P) ->
  calculate_cumulative_returns (PriceSeries (p0 :: P))
  = map (fun p => Fin (p / p0 - 1)) (p0 :: P).
Proof.
  intros H. rewrite cumulative_returns_series.
  rewrite simple_returns_nonzero by exact H.
  unfold spec_cumulative, spec_returns.
  rewrite spec_returns_from_nonzero by exact H.
  cbn [length]. rewrite length_map, ratios_from_length.
  etransitivity;
    [| apply (f_equal (map (fun p => Fin (p / p0 - 1))));
       exact (ratios_telescope p0 P H)].
  rewrite map_map. apply map_ext. intros i.
  cbn [firstn map fadd]. rewrite <- firstn_map, one_plus_returns, firstn_map.
  unfold fprod. cbn [fold_left fmul]. rewrite fold_left_fmul_Fin.
  cbn [fsub]. f_equal. inversion H; subst. field. assumption.
Qed.

Lemma cumulative_returns_closed_form_witness :
  Forall (fun p => p <> 0) [100; 110; 99]
  /\ calculate_cumulative_returns (PriceSeries [100; 110; 99])
     = map (fun p => Fin (p / 100 - 1)) [100; 110; 99].
Proof.
  assert (H : Forall (fun p => p <> 0) [100; 110; 99])
    by (repeat constructor; lra).
  split; [exact H | exact (cumulative_returns_closed_form 100 [110; 99] H)].
Defined.

(** ** Maximum drawdown is never positive *)

Lemma fold_left_Rmin_le (t : list R) (x : R) : fold_left Rmin t x <= x.
Proof.
  revert x. induction t as [| y t IH]; intros x; simpl; [lra |].
  eapply Rle_trans; [apply IH | apply Rmin_l].
Qed.

(** The first row with a nonzero peak sits at its peak. *)
Lemma first_nonzero_peak_row_from (l : list R) :
  match filter (fun r => negb (Reqb (snd r) 0))
               (combine l (running_max_from 0 l)) with
  | [] => True
  | r :: _ => fst r = snd r
  end.
Proof.
  induction l as [| x l IH]; [exact I |].
  cbn [running_max_from combine filter snd].
  destruct (Reqb_spec (Rmax 0 x) 0) as [Hz | Hnz]; cbn [negb].
  - rewrite Hz. exact IH.
  - cbn [fst snd]. unfold Rmax in *. destruct (Rle_dec 0 x); lra.
Qed.

Lemma first_nonzero_peak_row (cum : list R) :
  match filter (fun r => negb (Reqb (snd r) 0)) (drawdown_rows cum) with
  | [] => True
  | r :: _ => fst r = snd r
  end.
Proof.
  destruct cum as [| x l]; [exact I |].
  unfold drawdown_rows. cbn [running_max combine filter snd].
  destruct (Reqb_spec x 0) as [Hz | Hnz]; cbn [negb].
  - rewrite Hz. apply first_nonzero_peak_row_from.
  - reflexivity.
Qed.

(** X3.  On a finite series [calculate_maximum_drawdown] never returns a positive
    number, nor plus infinity. *)
Theorem maximum_drawdown_not_positive (cum : list R) :
  not_positive (calculate_maximum_drawdown (map Fin cum)).
Proof.
  rewrite maximum_drawdown_Fin.
  destruct (existsb below_zero_peak (drawdown_rows cum)); [exact I |].
  unfold spec_maximum_drawdown.
  pose proof (first_nonzero_peak_row cum) as Hhead.
  destruct (filter _ (drawdown_rows cum)) as [| r rows] eqn:Hf; [exact I |].
  cbn [map not_positive].
  assert (Hp : snd r <> 0).
  { assert (Hin : In r (filter (fun r => negb (Reqb (snd r) 0))
                                (drawdown_rows cum)))
      by (rewrite Hf; left; reflexivity).
    apply filter_In in Hin. destruct Hin as [_ Hn].
    destruct (Reqb_spec (snd r) 0); [discriminate Hn | assumption]. }
  eapply Rle_trans; [apply fold_left_Rmin_le |].
  unfold drawdown_ratio. rewrite Hhead.
  right. field. exact Hp.
Qed.

(** ** Fewer than two returns *)

Lemma fdiv_NaN_r (x : float64) : fdiv x NaN = NaN.
Proof. destruct x; reflexivity. Qed.

Lemma series_std_short (l : list float64) :
  (length (dropna l) <= 1)%nat -> series_std l = NaN.
Proof.
  intros H. unfold series_std, series_var.
  destruct (Nat.leb_spec (length (dropna l)) 1) as [_ | Hgt];
    [reflexivity | lia].
Qed.

(** X4.  With at most one non-missing return the sample deviation is missing, and
    so are the annualized volatility and the Sharpe ratio. *)
Theorem volatility_and_sharpe_need_two_points (l : list float64) (rf : R) :
  (length (dropna l) <= 1)%nat ->
  calculate_annual_volatility l = NaN /\ calculate_sharpe_ratio l rf = NaN.
Proof.
  intros H. unfold calculate_annual_volatility, calculate_sharpe_ratio.
  rewrite (series_std_short l H), fdiv_NaN_r. split; reflexivity.
Qed.

Lemma volatility_and_sharpe_need_two_points_witness :
  (length (dropna [NaN; Fin (1 / 100)]) <= 1)%nat
  /\ calculate_annual_volatility [NaN; Fin (1 / 100)] = NaN
  /\ calculate_sharpe_ratio [NaN; Fin (1 / 100)] default_risk_free_rate = NaN.
Proof.
  assert (H : (length (dropna [NaN; Fin (1 / 100)]) <= 1)%nat)
    by (simpl; apply le_n).
  split; [exact H |].
  exact (volatility_and_sharpe_need_two_points _ default_risk_free_rate H).
Defined.

(** ** Sign of the Sharpe ratio, zero volatility, Sortino without downside *)

Lemma Rsum_nonneg_zero (l : list R) :
  Forall (fun x => 0 <= x) l -> Rsum l = 0 -> Forall (fun x => x = 0) l.
Proof.
  induction 1 as [| x l Hx Hl IH]; intros Hs; [constructor |].
  simpl in Hs. pose proof (Rsum_nonneg l Hl) as Hn.
  constructor; [lra | apply IH; lra].
Qed.

Lemma Rsum_zero (l : list R) : Forall (fun x => x = 0) l -> Rsum l = 0.
Proof. induction 1 as [| x l Hx _ IH]; simpl; lra. Qed.

Lemma Rsum_const (c : R) (l : list R) :
  Forall (fun x => x = c) l -> Rsum l = INR (length l) * c.
Proof.
  induction 1 as [| x l Hx _ IH]; [simpl; ring |].
  cbn [Rsum length]. rewrite S_INR, IH, Hx. ring.
Qed.

(** The squared deviations vanish exactly when every entry is the mean. *)
Lemma sum_sq_dev_zero_iff (l : list R) :
  sum_sq_dev l = 0 <-> Forall (fun x => x = Rmean l) l.
Proof.
  unfold sum_sq_dev. generalize (Rmean l) as m. intros m. split.
  - intros Hs. apply Rsum_nonneg_zero in Hs.
    + rewrite Forall_map in Hs. eapply Forall_impl; [| exact Hs].
      intros x Hx. cbv beta in Hx.
      apply Rmult_integral in Hx. destruct Hx; lra.
    + rewrite Forall_map. apply Forall_forall. intros x _. cbv beta.
      pose proof (Rle_0_sqr (m - x)) as Hq. unfold Rsqr in Hq. exact Hq.
  - intros H. apply Rsum_zero. rewrite Forall_map.
    eapply Forall_impl; [| exact H]. intros x Hx. cbv beta. rewrite Hx. ring.
Qed.

Lemma all_equal_mean (l : list R) :
  all_equal l <-> Forall (fun x => x = Rmean l) l.
Proof.
  split.
  - intros H. destruct l as [| c l]; [constructor |].
    assert (Hc : Forall (fun x => x = c) (c :: l)).
    { apply Forall_forall. intros x Hx. apply H; [exact Hx | left; reflexivity]. }
    assert (Hm : Rmean (c :: l) = c).
    { unfold Rmean. rewrite (Rsum_const c) by exact Hc.
      pose proof (INR_length_cons_pos c l) as Hn. field. lra. }
    rewrite Hm. exact Hc.
  - intros H x y Hx Hy. rewrite Forall_forall in H.
    rewrite (H x Hx), (H y Hy). reflexivity.
Qed.

Lemma sample_std_zero_iff (l : list R) :
  (2 <= length l)%nat -> (sample_std l = 0 <-> all_equal l).
Proof.
  intros Hlen. rewrite all_equal_mean, <- sum_sq_dev_zero_iff.
  unfold sample_std.
  assert (Hd : 0 < INR (length l - 1)) by (apply lt_0_INR; lia).
  pose proof (sum_sq_dev_nonneg l) as Hs.
  split.
  - intros H. apply sqrt_eq_0 in H; [| apply var_quotient_nonneg; lia].
    unfold Rdiv in H. apply Rmult_integral in H. destruct H as [H | H];
      [exact H |].
    pose proof (Rinv_0_lt_compat _ Hd). lra.
  - intros H. rewrite H. unfold Rdiv. rewrite Rmult_0_l. apply sqrt_0.
Qed.

(** X5.  The annualized volatility of at least two finite returns is a finite
    number, never negative, and 0 exactly when all the returns are equal. *)
Theorem annual_volatility_zero_iff_constant (l : list R) :
  (2 <= length l)%nat ->
  exists v, calculate_annual_volatility (map Fin l) = Fin v
            /\ 0 <= v /\ (v = 0 <-> all_equal l).
Proof.
  intros Hlen. exists (sample_std l * sqrt 252).
  pose proof sqrt_252_pos as Hs.
  assert (Hstd : 0 <= sample_std l) by apply sqrt_pos.
  split; [apply annual_volatility_Fin; exact Hlen |].
  split; [nra |].
  rewrite <- (sample_std_zero_iff l Hlen). split; intros H; nra.
Qed.

Lemma annual_volatility_zero_iff_constant_witness :
  (2 <= length [1 / 100; 3 / 100])%nat
  /\ exists v, calculate_annual_volatility (map Fin [1 / 100; 3 / 100]) = Fin v
               /\ 0 <= v /\ (v = 0 <-> all_equal [1 / 100; 3 / 100]).
Proof.
  assert (H : (2 <= length [1 / 100; 3 / 100])%nat) by (simpl; apply le_n).
  split; [exact H |].
  exact (annual_volatility_zero_iff_constant [1 / 100; 3 / 100] H).
Defined.

(** X6.  With at least two finite returns that are not all equal the Sharpe ratio
    is the finite number [(mean - rf/252) / stdev * sqrt(252)], and it is
    positive exactly when the mean return exceeds the daily risk-free rate. *)
Theorem sharpe_ratio_sign (l : list R) (rf : R) :
  (2 <= length l)%nat ->
  ~ all_equal l ->
  calculate_sharpe_ratio (map Fin l) rf
  = Fin ((Rmean l - rf / 252) / sample_std l * sqrt 252)
  /\ (0 < (Rmean l - rf / 252) / sample_std l * sqrt 252
      <-> rf / 252 < Rmean l).
Proof.
  intros Hlen Hne.
  assert (Hnz : sample_std l <> 0)
    by (intros H; apply Hne; apply (sample_std_zero_iff l Hlen); exact H).
  assert (Hpos : 0 < sample_std l)
    by (pose proof (sqrt_pos (sum_sq_dev l / INR (length l - 1))) as Hp;
        unfold sample_std in *; lra).
  split; [apply sharpe_ratio_Fin; assumption |].
  pose proof sqrt_252_pos as Hs.
  assert (Hk : 0 < / sample_std l * sqrt 252)
    by (apply Rmult_lt_0_compat; [apply Rinv_0_lt_compat |]; assumption).
  replace ((Rmean l - rf / 252) / sample_std l * sqrt 252)
    with ((Rmean l - rf / 252) * (/ sample_std l * sqrt 252))
    by (field; exact Hnz).
  split; intros H; nra.
Qed.

Lemma two_returns_not_all_equal : ~ all_equal [1 / 100; 3 / 100].
Proof.
  intros H. specialize (H (1 / 100) (3 / 100)).
  assert (E : 1 / 100 = 3 / 100)
    by (apply H; [left | right; left]; reflexivity).
  lra.
Defined.

Lemma sharpe_ratio_sign_witness :
  (2 <= length [1 / 100; 3 / 100])%nat
  /\ calculate_sharpe_ratio (map Fin [1 / 100; 3 / 100]) default_risk_free_rate
     = Fin ((Rmean [1 / 100; 3 / 100] - default_risk_free_rate / 252)
            / sample_std [1 / 100; 3 / 100] * sqrt 252).
Proof.
  assert (H : (2 <= length [1 / 100; 3 / 100])%nat) by (simpl; apply le_n).
  split; [exact H |].
  exact (proj1 (sharpe_ratio_sign [1 / 100; 3 / 100] default_risk_free_rate
                  H two_returns_not_all_equal)).
Defined.

(** X7.  The Sortino ratio of a non-empty finite series is missing exactly when no
    return falls below the daily risk-free rate. *)
Theorem sortino_ratio_nan_iff_no_downside (x : R) (l : list R) (rf : R) :
  calculate_sortino_ratio (map Fin (x :: l)) rf = NaN
  <-> Forall (fun y => rf / 252 <= y) (x :: l).
Proof.
  rewrite sortino_ratio_Fin.
  set (sq := map (fun y => y * y)
               (map (fun y => Rmin y 0) (excess_over rf (x :: l)))).
  assert (Hdd : downside_deviation rf (x :: l) = 0
                <-> Forall (fun y => rf / 252 <= y) (x :: l)).
  { unfold downside_deviation. fold sq.
    pose proof sqrt_252_pos as Hs.
    pose proof (Rmean_squares_nonneg
                  (map (fun y => Rmin y 0) (excess_over rf (x :: l)))) as Hm.
    fold sq in Hm.
    assert (Hn : 0 < INR (length sq))
      by (unfold sq, excess_over; rewrite !length_map;
          apply INR_length_cons_pos).
    assert (Hsq : Forall (fun z => 0 <= z) sq).
    { unfold sq. rewrite Forall_map. apply Forall_forall. intros z _.
      cbv beta. pose proof (Rle_0_sqr z) as Hq. unfold Rsqr in Hq. exact Hq. }
    assert (Hzero : Rsum sq = 0 <-> Forall (fun y => rf / 252 <= y) (x :: l)).
    { split.
      - intros H0. apply (Rsum_nonneg_zero _ Hsq) in H0.
        unfold sq, excess_over in H0. rewrite !Forall_map in H0.
        eapply Forall_impl; [| exact H0]. intros y Hy. cbv beta in Hy.
        assert (Hmin : Rmin (y - rf / 252) 0 = 0)
          by (apply Rmult_integral in Hy; destruct Hy; assumption).
        unfold Rmin in Hmin. destruct (Rle_dec (y - rf / 252) 0); lra.
      - intros H. apply Rsum_zero. unfold sq, excess_over.
        rewrite !Forall_map. eapply Forall_impl; [| exact H].
        intros y Hy. cbv beta. rewrite Rmin_right by lra. ring. }
    rewrite <- Hzero. split.
    - intros H. assert (Hr : sqrt (Rmean sq) = 0) by nra.
      apply sqrt_eq_0 in Hr; [| exact Hm].
      unfold Rmean, Rdiv in Hr. apply Rmult_integral in Hr.
      destruct Hr as [Hr | Hr]; [exact Hr |].
      pose proof (Rinv_0_lt_compat _ Hn). lra.
    - intros H. unfold Rmean. rewrite H. unfold Rdiv.
      rewrite Rmult_0_l, sqrt_0. ring. }
  rewrite <- Hdd.
  destruct (Reqb_spec (downside_deviation rf (x :: l)) 0) as [Hz | Hz].
  - split; intros _; [exact Hz | reflexivity].
  - split; intros H; [discriminate H | contradiction].
Qed.

(** ** Value at risk: bounds and rejected confidence levels *)

Lemma Rinsert_In (x y : R) (l : list R) :
  In y (Rinsert x l) <-> y = x \/ In y l.
Proof.
  induction l as [| z l IH]; cbn [Rinsert].
  - simpl. intuition.
  - destruct (Rleb x z); simpl; [intuition |].
    rewrite IH. simpl. intuition.
Qed.

Lemma Rsort_In (y : R) (l : list R) : In y (Rsort l) <-> In y l.
Proof.
  unfold Rsort. induction l as [| x l IH]; [reflexivity |].
  cbn [fold_right]. rewrite Rinsert_In, IH. simpl. intuition.
Qed.

Lemma Rinsert_sorted (x : R) (l : list R) :
  StronglySorted Rle l -> StronglySorted Rle (Rinsert x l).
Proof.
  induction 1 as [| z l Hl IH Hz]; cbn [Rinsert].
  - constructor; constructor.
  - destruct (Rleb_spec x z) as [Hle | Hgt].
    + constructor; [constructor; assumption |].
      constructor; [exact Hle |].
      eapply Forall_impl; [| exact Hz]. intros w Hw. cbv beta in *. lra.
    + constructor; [exact IH |].
      apply Forall_forall. intros w Hw. apply Rinsert_In in Hw.
      destruct Hw as [-> | Hw]; [lra |].
      rewrite Forall_forall in Hz. exact (Hz w Hw).
Qed.

Lemma Rsort_sorted (l : list R) : StronglySorted Rle (Rsort l).
Proof.
  unfold Rsort. induction l as [| x l IH]; [constructor |].
  cbn [fold_right]. apply Rinsert_sorted. exact IH.
Qed.

Lemma sorted_nth_le (v : list R) (i j : nat) :
  StronglySorted Rle v -> (i <= j)%nat -> (j < length v)%nat ->
  nth i v 0 <= nth j v 0.
Proof.
  intros Hs. revert i j. induction Hs as [| z v Hv IH Hz]; intros i j Hij Hj.
  - simpl in Hj. lia.
  - destruct i as [| i], j as [| j]; cbn [nth]; simpl in Hj.
    + lra.
    + rewrite Forall_forall in Hz. apply Hz. apply nth_In. lia.
    + lia.
    + apply IH; lia.
Qed.

(** The interpolated quantile stays within any bounds of the sample. *)
Lemma Rquantile_bounds (x : R) (l : list R) (q lo hi : R) :
  0 <= q <= 1 ->
  (forall y, In y (x :: l) -> lo <= y <= hi) ->
  lo <= Rquantile (x :: l) q <= hi.
Proof.
  intros Hq Hb. unfold Rquantile.
  set (v := Rsort (x :: l)).
  assert (Hlen : length v = S (length l))
    by (unfold v; rewrite Rsort_length; reflexivity).
  set (pos := q * INR (length v - 1)).
  set (j := Z.to_nat (Int_part pos)).
  set (j' := Nat.min (S j) (length v - 1)).
  assert (Hj : (j <= length v - 1)%nat)
    by (apply virtual_index_bound; exact Hq).
  assert (Hjj : (j <= j')%nat) by (unfold j'; lia).
  assert (Hj' : (j' < length v)%nat) by (unfold j'; lia).
  pose proof (sorted_nth_le v j j' (Rsort_sorted (x :: l)) Hjj Hj') as Hle.
  assert (Hin : forall k, (k < length v)%nat -> lo <= nth k v 0 <= hi).
  { intros k Hk. apply Hb. apply (Rsort_In _ (x :: l)). apply nth_In.
    exact Hk. }
  pose proof (Hin j ltac:(lia)) as Hlo. pose proof (Hin j' Hj') as Hhi.
  destruct (base_fp pos) as [Hg0 Hg1].
  split; nra.
Qed.

Lemma calculate_var_Fin (x : R) (l : list R) (c period : R) :
  0 <= c <= 1 -> 0 <= period ->
  calculate_var (map Fin (x :: l)) c period
  = Some (Fin (- (Rquantile (x :: l) (1 - c) * sqrt period))).
Proof.
  intros Hc Hp. unfold calculate_var. cbn [map].
  change (Fin x :: map Fin l) with (map Fin (x :: l)).
  rewrite series_quantile_Fin by lra.
  rewrite fsqrt_nonneg by exact Hp. reflexivity.
Qed.

(** X8.  If every return of a non-empty finite series lies between [lo] and [hi],
    the annualized value at risk at any confidence level in [0, 1] lies
    between [-hi * sqrt(252)] and [-lo * sqrt(252)]: it never reports a loss
    larger than the worst return. *)
Theorem value_at_risk_bounds (x : R) (l : list R) (c lo hi : R) :
  0 <= c <= 1 ->
  (forall y, In y (x :: l) -> lo <= y <= hi) ->
  exists v, calculate_var (map Fin (x :: l)) c 252 = Some (Fin v)
            /\ - hi * sqrt 252 <= v <= - lo * sqrt 252.
Proof.
  intros Hc Hb. exists (- (Rquantile (x :: l) (1 - c) * sqrt 252)).
  split; [apply calculate_var_Fin; lra |].
  pose proof (Rquantile_bounds x l (1 - c) lo hi ltac:(lra) Hb) as Hq.
  pose proof sqrt_252_pos as Hs. split; nra.
Qed.

Lemma example_returns_var_bounds :
  forall y, In y example_returns_var -> - 2 / 100 <= y <= 2 / 100.
Proof.
  unfold example_returns_var. intros y Hy. simpl in Hy.
  repeat (destruct Hy as [<- | Hy]; [lra |]). destruct Hy.
Defined.

Lemma value_at_risk_bounds_witness :
  0 <= 95 / 100 <= 1
  /\ exists v,
      calculate_var (map Fin example_returns_var) (95 / 100) 252
      = Some (Fin v)
      /\ - (2 / 100) * sqrt 252 <= v <= - (- 2 / 100) * sqrt 252.
Proof.
  assert (Hc : 0 <= 95 / 100 <= 1) by lra.
  split; [exact Hc |].
  exact (value_at_risk_bounds (1 / 100) _ (95 / 100) (- 2 / 100) (2 / 100)
           Hc example_returns_var_bounds).
Defined.

(** X9.  [calculate_var] answers [NaN] on an empty series whatever the
    confidence level is; on a non-empty series it fails (pandas raises
    [ValueError]) exactly when the confidence level is outside [0, 1]. *)
Theorem value_at_risk_rejects_confidence (x : float64) (l : list float64)
  (c period : R) :
  calculate_var [] c period = Some NaN
  /\ (calculate_var (x :: l) c period = None <-> c < 0 \/ 1 < c).
Proof.
  split; [reflexivity |].
  unfold calculate_var, series_quantile.
  destruct (Rleb_spec 0 (1 - c)) as [H0 | H0];
    destruct (Rleb_spec (1 - c) 1) as [H1 | H1]; cbn [andb].
  - destruct (sort_values (dropna (x :: l))); split;
      try (intros H; discriminate H); intros [H | H]; lra.
  - split; [intros _; left; lra | reflexivity].
  - split; [intros _; right; lra | reflexivity].
  - split; [intros _; right; lra | reflexivity].
Qed.

(** ** Paired metrics: no common timestamp, a series against itself *)

Lemma in_has_key (t : Z) (x : float64) (s : Series) :
  In (t, x) s -> has_key t s = true.
Proof.
  unfold has_key. induction s as [| [u y] s IH]; intros Hin; [destruct Hin |].
  cbn [lookup]. destruct (Z.eqb_spec t u) as [_ | Hne]; [reflexivity |].
  destruct Hin as [Heq | Hin]; [congruence | exact (IH Hin)].
Qed.

Lemma lookup_In (t : Z) (y : float64) (s : Series) :
  lookup t s = Some y -> In (t, y) s.
Proof.
  induction s as [| [u z] s IH]; cbn [lookup]; [discriminate |].
  destruct (Z.eqb_spec t u) as [-> | _]; intros H.
  - left. congruence.
  - right. exact (IH H).
Qed.

Lemma in_lookup_nodup (t : Z) (x : float64) (s : Series) :
  NoDup (map fst s) -> In (t, x) s -> lookup t s = Some x.
Proof.
  induction s as [| [u z] s IH]; intros Hnd Hin; [destruct Hin |].
  cbn [map fst] in Hnd. inversion Hnd as [| ? ? Hnotin Hnd']; subst.
  cbn [lookup]. destruct Hin as [Heq | Hin].
  - inversion Heq; subst. rewrite Z.eqb_refl. reflexivity.
  - destruct (Z.eqb_spec t u) as [-> | _]; [| exact (IH Hnd' Hin)].
    exfalso. apply Hnotin. apply in_map_iff. exists (u, x). split;
      [reflexivity | exact Hin].
Qed.

Lemma has_key_false_get (t : Z) (s : Series) :
  has_key t s = false -> get t s = NaN.
Proof.
  unfold has_key, get. destruct (lookup t s); [discriminate | reflexivity].
Qed.

Lemma fsub_NaN_r (x : float64) : fsub x NaN = NaN.
Proof. destruct x; reflexivity. Qed.

Lemma dropna_all_nan (l : list float64) :
  Forall (fun x => x = NaN) l -> dropna l = [].
Proof.
  unfold dropna. induction 1 as [| x l Hx _ IH]; [reflexivity |].
  cbn [filter]. rewrite Hx. exact IH.
Qed.

Lemma no_common_timestamp_differences (p b : Series) :
  (forall t, has_key t p = true -> has_key t b = false) ->
  aligned_differences p b = [].
Proof.
  intros H. unfold aligned_differences, series_sub, values.
  apply dropna_all_nan. rewrite map_app, !map_map. apply Forall_app. split.
  - apply Forall_forall. intros y Hy. apply in_map_iff in Hy.
    destruct Hy as [[t x] [<- Hin]]. cbn [fst snd].
    rewrite has_key_false_get; [apply fsub_NaN_r |].
    apply H. exact (in_has_key t x p Hin).
  - apply Forall_forall. intros y Hy. apply in_map_iff in Hy.
    destruct Hy as [q [<- _]]. reflexivity.
Qed.

Lemma no_common_timestamp_rows (p b : Series) :
  (forall t, has_key t p = true -> has_key t b = false) ->
  aligned_rows p b = [].
Proof.
  intros H. unfold aligned_rows, align_inner.
  assert (Hf : filter (fun q => has_key (fst q) b) p = []).
  { assert (Hall : forall q, In q p -> has_key (fst q) b = false).
    { intros [t x] Hin. apply H. exact (in_has_key t x p Hin). }
    induction p as [| q p IHp]; [reflexivity |].
    cbn [filter]. rewrite Hall by (left; reflexivity).
    apply IHp.
    - intros t Ht. apply H. unfold has_key in *. cbn [lookup].
      destruct q as [u z]. destruct (Z.eqb t u); [reflexivity | exact Ht].
    - intros q' Hq'. apply Hall. right. exact Hq'. }
  rewrite Hf. reflexivity.
Qed.

(** X10.  When the portfolio and the benchmark share no timestamp, every paired
    metric is missing: tracking error, information ratio, alpha and beta. *)
Theorem paired_metrics_without_common_timestamp (p b : Series) :
  (forall t, has_key t p = true -> has_key t b = false) ->
  calculate_tracking_error p b = NaN
  /\ calculate_information_ratio p b = NaN
  /\ calculate_alpha_beta p b = (NaN, NaN).
Proof.
  intros H.
  pose proof (no_common_timestamp_differences p b H) as Hd.
  unfold aligned_differences in Hd.
  split; [| split].
  - unfold calculate_tracking_error, np_std, series_var. rewrite Hd.
    reflexivity.
  - unfold calculate_information_ratio, np_mean, series_mean. rewrite Hd.
    reflexivity.
  - apply alpha_beta_few_rows. rewrite (no_common_timestamp_rows p b H).
    simpl. lia.
Qed.

Lemma paired_metrics_without_common_timestamp_witness :
  calculate_tracking_error [(1%Z, Fin 1)] [(2%Z, Fin 2)] = NaN
  /\ calculate_information_ratio [(1%Z, Fin 1)] [(2%Z, Fin 2)] = NaN
  /\ calculate_alpha_beta [(1%Z, Fin 1)] [(2%Z, Fin 2)] = (NaN, NaN).
Proof.
  apply paired_metrics_without_common_timestamp.
  intros t. unfold has_key. cbn [lookup].
  destruct (Z.eqb_spec t 1) as [-> | _]; [reflexivity | discriminate].
Defined.

Lemma series_as_combine (p : Series) : combine (map fst p) (values p) = p.
Proof. unfold values. apply combine_fst_snd_rows. Qed.

Lemma self_differences (p : Series) (xs : list R) :
  NoDup (map fst p) -> values p = map Fin xs ->
  aligned_differences p p = map Fin (map (fun x => x - x) xs).
Proof.
  intros Hnd Hv. unfold aligned_differences.
  rewrite <- (series_as_combine p) at 1 2.
  rewrite series_sub_same_index;
    [| exact Hnd | unfold values; rewrite !length_map; reflexivity ..].
  rewrite Hv, zip_with_Fin.
  assert (E : map (fun r => fsub (Fin (fst r)) (Fin (snd r))) (combine xs xs)
              = map Fin (map (fun x => x - x) xs)).
  { clear. induction xs as [| x xs IH]; [reflexivity |].
    cbn [combine map fst snd fsub]. f_equal. exact IH. }
  rewrite E. apply dropna_Fin.
Qed.

Lemma zeros_population_std (xs : list R) :
  population_std (map (fun x => x - x) xs) = 0.
Proof.
  assert (Hz : Forall (fun d => d = 0) (map (fun x => x - x) xs)).
  { rewrite Forall_map. apply Forall_forall. intros x _. cbv beta. ring. }
  assert (Hs : sum_sq_dev (map (fun x => x - x) xs) = 0).
  { apply sum_sq_dev_zero_iff. apply all_equal_mean.
    intros a b Ha Hb. rewrite Forall_forall in Hz.
    rewrite (Hz a Ha), (Hz b Hb). reflexivity. }
  unfold population_std. rewrite Hs. unfold Rdiv. rewrite Rmult_0_l.
  apply sqrt_0.
Qed.

(** X11.  A series measured against itself (distinct timestamps, finite values, at
    least one point) has tracking error 0, and its information ratio is the
    quotient 0 / 0: missing. *)
Theorem tracking_error_against_itself (p : Series) (xs : list R) :
  NoDup (map fst p) -> values p = map Fin xs -> xs <> [] ->
  calculate_tracking_error p p = Fin 0
  /\ calculate_information_ratio p p = NaN.
Proof.
  intros Hnd Hv Hne.
  pose proof (self_differences p xs Hnd Hv) as Hd.
  assert (Hlen : (1 <= length (map (fun x : R => (x - x)%R) xs))%nat)
    by (rewrite length_map; destruct xs; [congruence | simpl; lia]).
  split.
  - rewrite (tracking_error_Fin p p _ Hd Hlen), zeros_population_std.
    f_equal. ring.
  - rewrite (information_ratio_Fin p p _ Hd Hlen), zeros_population_std.
    assert (Hm : Rmean (map (fun x => x - x) xs) = 0).
    { unfold Rmean. rewrite (Rsum_zero _); [unfold Rdiv; ring |].
      rewrite Forall_map. apply Forall_forall. intros x _. cbv beta. ring. }
    rewrite Hm, fdiv_zero. unfold signed_inf. rdecide. reflexivity.
Qed.

Lemma tracking_error_against_itself_witness :
  calculate_tracking_error
    [(1%Z, Fin (1 / 100)); (2%Z, Fin (3 / 100))]
    [(1%Z, Fin (1 / 100)); (2%Z, Fin (3 / 100))] = Fin 0
  /\ calculate_information_ratio
       [(1%Z, Fin (1 / 100)); (2%Z, Fin (3 / 100))]
       [(1%Z, Fin (1 / 100)); (2%Z, Fin (3 / 100))] = NaN.
Proof.
  apply (tracking_error_against_itself _ [1 / 100; 3 / 100]).
  - cbn [map fst]. repeat constructor; simpl; intuition discriminate.
  - reflexivity.
  - discriminate.
Defined.

Lemma filter_all_true {A : Type} (f : A -> bool) (s : list A) :
  (forall q, In q s -> f q = true) -> filter f s = s.
Proof.
  induction s as [| q s IH]; intros Hall; [reflexivity |].
  cbn [filter]. rewrite Hall by (left; reflexivity). f_equal.
  apply IH. intros q' Hq'. apply Hall. right. exact Hq'.
Qed.

Lemma self_rows (p : Series) (xs : list R) :
  NoDup (map fst p) -> values p = map Fin xs ->
  aligned_rows p p = map fin_row (map (fun x => (x, x)) xs).
Proof.
  intros Hnd Hv. unfold aligned_rows, align_inner.
  assert (Hf : filter (fun q => has_key (fst q) p) p = p).
  { apply filter_all_true. intros [t x] Hin.
    exact (in_has_key t x p Hin). }
  rewrite Hf. unfold concat_dropna. rewrite combine_values_aligned.
  assert (Hg : map (fun q => (snd q, get (fst q) p)) p
               = map (fun q => (snd q, snd q)) p).
  { apply map_ext_in. intros [t x] Hin. cbn [fst snd]. unfold get.
    rewrite (in_lookup_nodup t x p Hnd Hin). reflexivity. }
  rewrite Hg.
  assert (Hrows : map (fun q : Z * float64 => (snd q, snd q)) p
                  = map fin_row (map (fun x => (x, x)) xs)).
  { rewrite <- (map_map snd (fun v => (v, v))). fold (values p).
    rewrite Hv, !map_map. reflexivity. }
  rewrite Hrows. clear. induction xs as [| x xs IH]; [reflexivity |].
  cbn [map filter fin_row fst snd is_nan negb andb]. f_equal. exact IH.
Qed.

Lemma sample_cov_self (xs : list R) :
  sample_cov xs xs = sum_sq_dev xs / INR (length xs - 1).
Proof.
  unfold sample_cov, sum_sq_dev. f_equal. generalize (Rmean xs) as m.
  intros m. induction xs as [| x xs IH]; [reflexivity |].
  cbn [combine map Rsum fst snd]. rewrite IH. ring.
Qed.

(** X12.  The beta of a series against itself is not 1: the code divides the
    sample covariance (divisor [n - 1]) by the population variance (divisor
    [n]), so that for [n >= 2] distinct-timestamp finite points that are not
    all equal, beta is [n / (n - 1)] and alpha is
    [(mean - beta * mean) * 252]. *)
Theorem beta_against_itself (p : Series) (xs : list R) :
  NoDup (map fst p) -> values p = map Fin xs ->
  (2 <= length xs)%nat -> ~ all_equal xs ->
  calculate_alpha_beta p p
  = (Fin ((Rmean xs - INR (length xs) / INR (length xs - 1) * Rmean xs) * 252),
     Fin (INR (length xs) / INR (length xs - 1))).
Proof.
  intros Hnd Hv Hlen Hne.
  rewrite calculate_alpha_beta_rows, (self_rows p xs Hnd Hv),
    alpha_beta_of_fin_rows.
  unfold alpha_beta_of_finite_rows. rewrite length_map, !map_map.
  cbn [fst snd].
  rewrite map_id.
  destruct (Nat.ltb_spec (length xs) 2) as [Hlt | _]; [lia |].
  assert (Hs : sum_sq_dev xs <> 0).
  { intros H. apply Hne. apply all_equal_mean, sum_sq_dev_zero_iff. exact H. }
  assert (Hn : 0 < INR (length xs)) by (apply lt_0_INR; lia).
  assert (Hd : 0 < INR (length xs - 1)) by (apply lt_0_INR; lia).
  assert (Hvar : population_var xs <> 0).
  { unfold population_var, Rdiv. intros H. apply Rmult_integral in H.
    destruct H as [H | H]; [exact (Hs H) |].
    pose proof (Rinv_0_lt_compat _ Hn). lra. }
  rewrite Reqb_false by exact Hvar.
  assert (Hbeta : sample_cov xs xs / population_var xs
                  = INR (length xs) / INR (length xs - 1)).
  { rewrite sample_cov_self. unfold population_var. field.
    repeat split; lra. }
  cbv zeta. rewrite Hbeta. reflexivity.
Qed.

Lemma beta_against_itself_witness :
  calculate_alpha_beta
    [(1%Z, Fin (1 / 100)); (2%Z, Fin (3 / 100))]
    [(1%Z, Fin (1 / 100)); (2%Z, Fin (3 / 100))]
  = (Fin ((Rmean [1 / 100; 3 / 100]
           - INR 2 / INR 1 * Rmean [1 / 100; 3 / 100]) * 252),
     Fin (INR 2 / INR 1)).
Proof.
  apply (beta_against_itself _ [1 / 100; 3 / 100]).
  - cbn [map fst]. repeat constructor; simpl; intuition discriminate.
  - reflexivity.
  - simpl. apply le_n.
  - exact two_returns_not_all_equal.
Defined.

(** X13.  Alignment does not depend on which series comes first: with distinct
    timestamps in each series, a pair of values is a valid row of [(a, b)]
    exactly when the swapped pair is a valid row of [(b, a)]. *)
Theorem aligned_rows_symmetric (a b : Series) (x y : float64) :
  NoDup (map fst a) -> NoDup (map fst b) ->
  (In (x, y) (aligned_rows a b) <-> In (y, x) (aligned_rows b a)).
Proof.
  intros Ha Hb. rewrite !aligned_rows_spec. split.
  - intros [t [Hin [Hl [Hx Hy]]]]. exists t.
    repeat split; try assumption.
    + exact (lookup_In t y b Hl).
    + exact (in_lookup_nodup t x a Ha Hin).
  - intros [t [Hin [Hl [Hy Hx]]]]. exists t.
    repeat split; try assumption.
    + exact (lookup_In t x a Hl).
    + exact (in_lookup_nodup t y b Hb Hin).
Qed.

Lemma aligned_rows_symmetric_witness :
  In (Fin (1 / 100), Fin (2 / 100))
     (aligned_rows example_portfolio example_benchmark)
  <-> In (Fin (2 / 100), Fin (1 / 100))
         (aligned_rows example_benchmark example_portfolio).
Proof.
  apply aligned_rows_symmetric;
    cbn [example_portfolio example_benchmark map fst];
    repeat constructor; simpl; intuition discriminate.
Defined.

(** * Properties of the portfolio handlers of [streamlit_task/main.py] *)

Lemma portfolio_get_app (k : String.string) (p q : Portfolio) :
  portfolio_get k (p ++ q)
  = match portfolio_get k p with
    | Some a => Some a
    | None => portfolio_get k q
    end.
Proof.
  induction p as [| [k' a] p IH]; [reflexivity |].
  cbn [app portfolio_get]. destruct (String.eqb k k'); [reflexivity | exact IH].
Qed.

Lemma portfolio_del_absent (k : String.string) (p : Portfolio) :
  portfolio_contains k p = false -> portfolio_del k p = p.
Proof.
  unfold portfolio_contains, portfolio_del.
  induction p as [| [k' a] p IH]; [reflexivity |].
  cbn [portfolio_get filter fst].
  destruct (String.eqb k k'); [discriminate |].
  intros H. cbn [negb]. f_equal. exact (IH H).
Qed.

Lemma portfolio_get_del (k k' : String.string) (p : Portfolio) :
  portfolio_get k' (portfolio_del k p)
  = if String.eqb k' k then None else portfolio_get k' p.
Proof.
  unfold portfolio_del. induction p as [| [k0 a] p IH].
  - cbn. destruct (String.eqb k' k); reflexivity.
  - cbn [filter fst portfolio_get].
    destruct (String.eqb_spec k k0) as [<- | Hne]; cbn [negb].
    + rewrite IH. destruct (String.eqb k' k); reflexivity.
    + cbn [portfolio_get]. rewrite IH.
      destruct (String.eqb_spec k' k0) as [-> | _]; [| reflexivity].
      destruct (String.eqb_spec k0 k) as [E | _]; [congruence | reflexivity].
Qed.

(** X14.  [add_asset] never overwrites: every asset already in the portfolio is
    still there afterwards, with the same class, type, weight and value, and
    the total weight of the portfolio is unchanged. *)
Theorem add_asset_keeps_existing (upper : String.string -> String.string)
  (st : SessionState) (k : String.string) (a : Asset) :
  portfolio_get k (portfolio st) = Some a ->
  portfolio_get k (portfolio (outcome_state (add_asset upper st))) = Some a
  /\ portfolio_weight (portfolio (outcome_state (add_asset upper st)))
     = portfolio_weight (portfolio st).
Proof.
  intros H. unfold add_asset.
  destruct (truthy (upper (new_asset_ticker st))
            && negb (portfolio_contains (upper (new_asset_ticker st))
                       (portfolio st))).
  - cbn [outcome_state with_portfolio portfolio]. unfold portfolio_add. split.
    + rewrite portfolio_get_app, H. reflexivity.
    + unfold portfolio_weight. rewrite map_app. cbn [map snd asset_weight].
      induction (map (fun e => asset_weight (snd e)) (portfolio st))
        as [| w ws IH]; simpl; [ring | rewrite IH; reflexivity].
  - destruct (portfolio_contains _ _); cbn [outcome_state]; split;
      (exact H || reflexivity).
Qed.

Lemma add_asset_keeps_existing_witness :
  portfolio_get "AAPL"%string
    (portfolio (outcome_state (add_asset (fun s => s) example_state)))
  = Some (mkAsset "Equity"%string "Stock"%string (1 / 2) 50000).
Proof.
  exact (proj1 (add_asset_keeps_existing (fun s => s) example_state
                  "AAPL"%string _ eq_refl)).
Defined.

Lemma add_asset_contains
  (upper : String.string -> String.string) (st : SessionState) :
  portfolio_contains (upper (new_asset_ticker st))
    (portfolio (outcome_state (add_asset upper st)))
  = truthy (upper (new_asset_ticker st))
    || portfolio_contains (upper (new_asset_ticker st)) (portfolio st).
Proof.
  unfold add_asset. set (t := upper (new_asset_ticker st)).
  destruct (truthy t) eqn:Ht;
    destruct (portfolio_contains t (portfolio st)) eqn:Hc;
    cbn [andb negb orb outcome_state with_portfolio portfolio];
    try exact Hc.
  unfold portfolio_contains in *. unfold portfolio_add.
  rewrite portfolio_get_app.
  destruct (portfolio_get t (portfolio st)); [reflexivity |].
  cbn [portfolio_get]. rewrite String.eqb_refl. reflexivity.
Qed.

(** X15.  After [add_asset] the upper-cased ticker is in the portfolio exactly
    when it is not empty or was there already: an empty ticker is never
    added. *)
Theorem add_asset_adds_nonempty_ticker
  (upper : String.string -> String.string) (st : SessionState) :
  portfolio_contains (upper (new_asset_ticker st))
    (portfolio (outcome_state (add_asset upper st)))
  = truthy (upper (new_asset_ticker st))
    || portfolio_contains (upper (new_asset_ticker st)) (portfolio st).
Proof. apply add_asset_contains. Qed.

(** X16.  Adding a new ticker and deleting it again gives back the portfolio as
    it was; the deletion ends the run with a rerun. *)
Theorem add_then_delete_asset (upper : String.string -> String.string)
  (st : SessionState) :
  truthy (upper (new_asset_ticker st)) = true ->
  portfolio_contains (upper (new_asset_ticker st)) (portfolio st) = false ->
  exists shown,
    delete_asset (upper (new_asset_ticker st))
      (outcome_state (add_asset upper st))
    = RerunRequested st shown.
Proof.
  intros Ht Hc.
  pose proof (add_asset_contains upper st) as Hin.
  rewrite Ht in Hin. cbn [orb] in Hin.
  unfold delete_asset. rewrite Hin.
  eexists. f_equal.
  unfold add_asset. rewrite Ht, Hc.
  cbn [andb negb outcome_state with_portfolio portfolio total_value
         new_asset_class new_asset_ticker new_asset_type].
  unfold portfolio_add, portfolio_del. rewrite filter_app.
  fold (portfolio_del (upper (new_asset_ticker st)) (portfolio st)).
  rewrite (portfolio_del_absent _ _ Hc).
  cbn [filter fst]. rewrite String.eqb_refl. cbn [negb].
  rewrite app_nil_r. destruct st; reflexivity.
Qed.

Lemma add_then_delete_asset_witness :
  exists shown,
    delete_asset "btc-usd"%string
      (outcome_state (add_asset (fun s => s) example_state))
    = RerunRequested example_state shown.
Proof.
  exact (add_then_delete_asset (fun s => s) example_state eq_refl eq_refl).
Defined.

(** X17.  [delete_asset] removes the named ticker and nothing else; for a ticker
    that is not in the portfolio it changes nothing, shows nothing and
    requests no rerun. *)
Theorem delete_asset_removes_only_ticker (ticker k : String.string)
  (st : SessionState) :
  portfolio_get k (portfolio (outcome_state (delete_asset ticker st)))
  = (if String.eqb k ticker then None else portfolio_get k (portfolio st))
  /\ (portfolio_contains ticker (portfolio st) = false <->
      delete_asset ticker st = Returned st []).
Proof.
  unfold delete_asset.
  destruct (portfolio_contains ticker (portfolio st)) eqn:Hc.
  - cbn [outcome_state with_portfolio portfolio]. split.
    + apply portfolio_get_del.
    + split; intros H; discriminate H.
  - cbn [outcome_state]. split; [| split; reflexivity].
    destruct (String.eqb_spec k ticker) as [-> | _]; [| reflexivity].
    unfold portfolio_contains in Hc.
    destruct (portfolio_get ticker (portfolio st)); [discriminate | reflexivity].
Qed.

(** * Properties of the price table of [exercise2/query.py] *)

(** ** Aggregates *)

Lemma fold_left_Rmin_lower (t : list R) (x y : R) :
  In y (x :: t) -> fold_left Rmin t x <= y.
Proof.
  revert x. induction t as [| z t IH]; intros x Hin.
  - destruct Hin as [<- | []]. simpl. lra.
  - cbn [fold_left]. destruct Hin as [<- | [<- | Hin]].
    + eapply Rle_trans; [apply fold_left_Rmin_le | apply Rmin_l].
    + eapply Rle_trans; [apply fold_left_Rmin_le | apply Rmin_r].
    + apply IH. right. exact Hin.
Qed.

Lemma fold_left_Rmax_ge (t : list R) (x : R) : x <= fold_left Rmax t x.
Proof.
  revert x. induction t as [| y t IH]; intros x; simpl; [lra |].
  eapply Rle_trans; [apply Rmax_l | apply IH].
Qed.

Lemma fold_left_Rmax_upper (t : list R) (x y : R) :
  In y (x :: t) -> y <= fold_left Rmax t x.
Proof.
  revert x. induction t as [| z t IH]; intros x Hin.
  - destruct Hin as [<- | []]. simpl. lra.
  - cbn [fold_left]. destruct Hin as [<- | [<- | Hin]].
    + eapply Rle_trans; [apply Rmax_l | apply fold_left_Rmax_ge].
    + eapply Rle_trans; [apply Rmax_r | apply fold_left_Rmax_ge].
    + apply IH. right. exact Hin.
Qed.

Lemma Rsum_bounds (l : list R) (lo hi : R) :
  (forall y, In y l -> lo <= y <= hi) ->
  INR (length l) * lo <= Rsum l <= INR (length l) * hi.
Proof.
  induction l as [| x l IH]; intros H.
  - simpl. lra.
  - cbn [Rsum length]. rewrite S_INR.
    pose proof (H x (or_introl eq_refl)) as Hx.
    assert (Hl : forall y, In y l -> lo <= y <= hi)
      by (intros y Hy; apply H; right; exact Hy).
    specialize (IH Hl). lra.
Qed.

Lemma Rmean_bounds (x : R) (l : list R) (lo hi : R) :
  (forall y, In y (x :: l) -> lo <= y <= hi) ->
  lo <= Rmean (x :: l) <= hi.
Proof.
  intros H. pose proof (Rsum_bounds (x :: l) lo hi H) as Hs.
  pose proof (INR_length_cons_pos x l) as Hn. unfold Rmean.
  split.
  - apply Rmult_le_reg_r with (INR (length (x :: l))); [exact Hn |].
    unfold Rdiv. rewrite Rmult_assoc, Rinv_l by lra. lra.
  - apply Rmult_le_reg_r with (INR (length (x :: l))); [exact Hn |].
    unfold Rdiv. rewrite Rmult_assoc, Rinv_l by lra. lra.
Qed.

Lemma aggregated_data_group (coin : String.string) (t : PriceTable) :
  (fetch_aggregated_data coin t = [] <-> rows_of_coin coin t = [])
  /\ forall a, In a (fetch_aggregated_data coin t) ->
       fetch_aggregated_data coin t = [a]
       /\ agg_coin a = coin
       /\ agg_count a = Z.of_nat (length (rows_of_coin coin t))
       /\ agg_min a <= agg_avg a <= agg_max a
       /\ forall r, In r (rows_of_coin coin t) ->
            agg_min a <= row_price r <= agg_max a.
Proof.
  unfold fetch_aggregated_data.
  assert (Hlen : length (map row_price (rows_of_coin coin t))
                 = length (rows_of_coin coin t)) by apply length_map.
  assert (Hin : forall r, In r (rows_of_coin coin t) ->
                  In (row_price r) (map row_price (rows_of_coin coin t)))
    by (intros r Hr; apply in_map; exact Hr).
  destruct (map row_price (rows_of_coin coin t)) as [| x l].
  - split; [| intros a []].
    destruct (rows_of_coin coin t); [split; reflexivity | discriminate Hlen].
  - split.
    + split; [discriminate |]. intros H. rewrite H in Hlen.
      discriminate Hlen.
    + intros a [<- | []]. cbn [agg_coin agg_count agg_min agg_avg agg_max].
      assert (Hb : forall y, In y (x :: l) ->
                     min_price x l <= y <= max_price x l).
      { intros y Hy. split;
          [apply fold_left_Rmin_lower | apply fold_left_Rmax_upper];
          exact Hy. }
      repeat split; try reflexivity.
      * rewrite Hlen. reflexivity.
      * apply (Rmean_bounds x l _ _ Hb).
      * apply (Rmean_bounds x l _ _ Hb).
      * apply Hb, Hin. assumption.
      * apply Hb, Hin. assumption.
Qed.

(** X18.  [fetch_aggregated_data] returns no group for a coin without rows, and
    otherwise a single group whose count is the number of rows of the coin
    and whose minimum, average and maximum are in that order and enclose
    every price of the coin (exact arithmetic: the average is not
    rounded). *)
Theorem aggregated_data_summary (coin : String.string) (t : PriceTable) :
  (fetch_aggregated_data coin t = [] <-> rows_of_coin coin t = [])
  /\ forall a, In a (fetch_aggregated_data coin t) ->
       fetch_aggregated_data coin t = [a]
       /\ agg_coin a = coin
       /\ agg_count a = Z.of_nat (length (rows_of_coin coin t))
       /\ agg_min a <= agg_avg a <= agg_max a
       /\ forall r, In r (rows_of_coin coin t) ->
            agg_min a <= row_price r <= agg_max a.
Proof. apply aggregated_data_group. Qed.

Lemma rows_of_coin_insert (coin c : String.string) (price : R) (now : Z)
  (t : PriceTable) :
  rows_of_coin c (insert_data coin price now t)
  = rows_of_coin c t
    ++ (if String.eqb coin c
        then [mkPriceRow (last_id t + 1) coin price now] else []).
Proof.
  unfold rows_of_coin, insert_data. cbn [table_rows].
  rewrite filter_app. cbn [filter row_coin].
  destruct (String.eqb coin c); reflexivity.
Qed.

(** X19.  After [insert_data(coin, price)] the group of the coin counts one row
    more and encloses the new price; the groups of the other coins are as
    before. *)
Theorem insert_data_updates_aggregate (coin c : String.string) (price : R)
  (now : Z) (t : PriceTable) :
  (c <> coin ->
   fetch_aggregated_data c (insert_data coin price now t)
   = fetch_aggregated_data c t)
  /\ exists a,
      fetch_aggregated_data coin (insert_data coin price now t) = [a]
      /\ agg_count a = (Z.of_nat (length (rows_of_coin coin t)) + 1)%Z
      /\ agg_min a <= price <= agg_max a.
Proof.
  split.
  - intros Hne. unfold fetch_aggregated_data.
    rewrite rows_of_coin_insert.
    destruct (String.eqb_spec coin c) as [E | _]; [congruence |].
    rewrite app_nil_r. reflexivity.
  - pose proof (aggregated_data_group coin (insert_data coin price now t))
      as [Hnil Hsum].
    assert (Hrows : rows_of_coin coin (insert_data coin price now t)
                    = rows_of_coin coin t
                      ++ [mkPriceRow (last_id t + 1) coin price now])
      by (rewrite rows_of_coin_insert, String.eqb_refl; reflexivity).
    destruct (fetch_aggregated_data coin (insert_data coin price now t))
      as [| a rest] eqn:Hf.
    + exfalso. destruct Hnil as [Hnil _]. specialize (Hnil eq_refl).
      rewrite Hrows in Hnil. destruct (rows_of_coin coin t); discriminate.
    + destruct (Hsum a (or_introl eq_refl)) as [Hone [_ [Hcount [_ Hb]]]].
      exists a. split; [exact Hone |]. split.
      * rewrite Hcount, Hrows, length_app. simpl. lia.
      * apply (Hb (mkPriceRow (last_id t + 1) coin price now)).
        rewrite Hrows. apply in_or_app. right. left. reflexivity.
Qed.

(** ** Primary keys and clean-up *)






(** X21.  [delete_old_data] keeps exactly the rows that are at most one day
    (86400 seconds) old, in their order, and running it again at the same
    time deletes nothing more. *)
Theorem delete_old_data_keeps_recent (now : Z) (t : PriceTable)
  (r : PriceRow) :
  (In r (table_rows (delete_old_data now t))
   <-> In r (table_rows t) /\ (now - 86400 <= row_timestamp r)%Z)
  /\ delete_old_data now (delete_old_data now t) = delete_old_data now t.
Proof.
  split.
  - unfold delete_old_data. cbn [table_rows]. rewrite filter_In.
    destruct (Z.ltb_spec (row_timestamp r) (now - 86400)); cbn [negb];
      intuition (try discriminate; try lia).
  - unfold delete_old_data. cbn [table_rows last_id]. f_equal.
    apply filter_all_true. intros q Hq. apply filter_In in Hq.
    exact (proj2 Hq).
Qed.

(** ** Pagination *)

Lemma firstn_plus {A : Type} (a b : nat) (l : list A) :
  firstn (a + b) l = firstn a l ++ firstn b (skipn a l).
Proof.
  revert l. induction a as [| a IH]; intros l; [reflexivity |].
  destruct l as [| x l]; cbn [Nat.add firstn skipn app].
  - rewrite firstn_nil. reflexivity.
  - f_equal. apply IH.
Qed.

Lemma insert_row_perm (r : PriceRow) (l : list PriceRow) :
  Permutation (insert_row r l) (r :: l).
Proof.
  induction l as [| s l IH]; cbn [insert_row]; [reflexivity |].
  destruct (row_timestamp s <? row_timestamp r)%Z; [reflexivity |].
  rewrite IH. apply perm_swap.
Qed.

Lemma sort_rows_perm (l : list PriceRow) : Permutation (sort_rows l) l.
Proof.
  unfold sort_rows. induction l as [| r l IH]; [reflexivity |].
  cbn [fold_right]. rewrite insert_row_perm. constructor. exact IH.
Qed.

Lemma insert_row_sorted (r : PriceRow) (l : list PriceRow) :
  newest_first l -> newest_first (insert_row r l).
Proof.
  unfold newest_first. induction 1 as [| s l Hl IH Hs]; cbn [insert_row].
  - constructor; constructor.
  - destruct (Z.ltb_spec (row_timestamp s) (row_timestamp r)) as [Hlt | Hge].
    + constructor; [constructor; assumption |].
      constructor; [lia |].
      eapply Forall_impl; [| exact Hs]. intros q Hq. cbv beta in *. lia.
    + constructor; [exact IH |].
      apply Forall_forall. intros q Hq.
      apply (Permutation_in _ (insert_row_perm r l)) in Hq.
      destruct Hq as [<- | Hq]; [exact Hge |].
      rewrite Forall_forall in Hs. exact (Hs q Hq).
Qed.

Lemma sort_rows_sorted (l : list PriceRow) : newest_first (sort_rows l).
Proof.
  unfold sort_rows. induction l as [| r l IH]; [constructor |].
  cbn [fold_right]. apply insert_row_sorted. exact IH.
Qed.

Lemma sorted_skipn (k : nat) (l : list PriceRow) :
  newest_first l -> newest_first (skipn k l).
Proof.
  unfold newest_first. revert l. induction k as [| k IH]; intros l H;
    [exact H |].
  destruct l as [| r l]; [constructor |].
  cbn [skipn]. apply IH. inversion H; assumption.
Qed.

Lemma In_firstn {A : Type} (k : nat) (l : list A) (x : A) :
  In x (firstn k l) -> In x l.
Proof.
  revert l. induction k as [| k IH]; intros l H; [destruct H |].
  destruct l as [| y l]; [destruct H |].
  destruct H as [H | H]; [left; exact H | right; apply IH; exact H].
Qed.

Lemma sorted_firstn (k : nat) (l : list PriceRow) :
  newest_first l -> newest_first (firstn k l).
Proof.
  unfold newest_first. revert l. induction k as [| k IH]; intros l H;
    [constructor |].
  destruct l as [| r l]; [constructor |].
  cbn [firstn]. inversion H as [| ? ? Hl Hr]; subst.
  constructor; [apply IH; exact Hl |].
  apply Forall_forall. intros q Hq. rewrite Forall_forall in Hr.
  apply Hr. exact (In_firstn _ _ _ Hq).
Qed.

Lemma In_skipn {A : Type} (k : nat) (l : list A) (x : A) :
  In x (skipn k l) -> In x l.
Proof.
  revert l. induction k as [| k IH]; intros l H; [exact H |].
  destruct l as [| y l]; [destruct H |]. right. apply IH. exact H.
Qed.

Section Pagination.

(** The ordering of the engine: any function that returns the same rows,
    newest first. *)
Variable order_by_timestamp_desc : list PriceRow -> list PriceRow.
Hypothesis order_permutes :
  forall l, Permutation (order_by_timestamp_desc l) l.
Hypothesis order_sorts : forall l, newest_first (order_by_timestamp_desc l).

(** X22.  A page holds at most [page_size] rows, all of the requested coin and
    all from the table, newest first. *)
Theorem page_rows (coin : String.string) (page page_size : Z)
  (t : PriceTable) :
  (0 <= page_size)%Z ->
  (Z.of_nat (length (fetch_data_paginated order_by_timestamp_desc coin page page_size t)) <= page_size)%Z
  /\ newest_first (fetch_data_paginated order_by_timestamp_desc coin page page_size t)
  /\ forall r, In r (fetch_data_paginated order_by_timestamp_desc coin page page_size t) ->
       row_coin r = coin /\ In r (table_rows t).
Proof.
  intros Hsize. unfold fetch_data_paginated, sql_limit, sql_offset.
  destruct (Z.ltb_spec page_size 0) as [Hneg | _]; [lia |].
  split; [| split].
  - pose proof (firstn_le_length (Z.to_nat page_size)
                  (skipn (Z.to_nat ((page - 1) * page_size))
                     (order_by_timestamp_desc (rows_of_coin coin t)))).
    lia.
  - apply sorted_firstn, sorted_skipn, order_sorts.
  - intros r Hr. apply In_firstn, In_skipn in Hr.
    apply (Permutation_in _ (order_permutes _)) in Hr.
    unfold rows_of_coin in Hr. apply filter_In in Hr.
    destruct Hr as [Hin Hc]. split; [| exact Hin].
    apply String.eqb_eq. exact Hc.
Qed.

(** X23.  Reading the pages 1 to [n] one after the other gives the first
    [n * page_size] rows of the ordered selection: between pages no row is
    skipped and none comes twice. *)
Theorem pages_cover_selection (coin : String.string) (page_size : nat)
  (n : nat) (t : PriceTable) :
  concat (map (fun k =>
                 fetch_data_paginated order_by_timestamp_desc coin
                   (Z.of_nat (S k)) (Z.of_nat page_size) t)
              (seq 0 n))
  = firstn (n * page_size)
      (order_by_timestamp_desc (rows_of_coin coin t)).
Proof.
  induction n as [| n IH]; [reflexivity |].
  rewrite seq_S, map_app, concat_app, IH. cbn [map concat Nat.add].
  rewrite app_nil_r.
  replace (S n * page_size)%nat with (n * page_size + page_size)%nat by lia.
  rewrite firstn_plus. f_equal.
  unfold fetch_data_paginated, sql_limit, sql_offset.
  destruct (Z.ltb_spec (Z.of_nat page_size) 0) as [Hneg | _]; [lia |].
  rewrite Nat2Z.id.
  replace (Z.to_nat ((Z.of_nat (S n) - 1) * Z.of_nat page_size))
    with (n * page_size)%nat by nia.
  reflexivity.
Qed.

(** X24.  Right after [insert_data(coin, price)] at a time later than every
    stored timestamp of the coin, the first page starts with the new
    row. *)
Theorem first_page_starts_with_insert (coin : String.string) (price : R)
  (now page_size : Z) (t : PriceTable) :
  (1 <= page_size)%Z ->
  (forall r, In r (rows_of_coin coin t) -> (row_timestamp r < now)%Z) ->
  hd_error (fetch_data_paginated order_by_timestamp_desc coin 1 page_size
              (insert_data coin price now t))
  = Some (mkPriceRow (last_id t + 1) coin price now).
Proof.
  intros Hsize Hnew. unfold fetch_data_paginated, sql_limit, sql_offset.
  destruct (Z.ltb_spec page_size 0) as [Hneg | _]; [lia |].
  replace (Z.to_nat ((1 - 1) * page_size)) with 0%nat by lia.
  cbn [skipn].
  set (new := mkPriceRow (last_id t + 1) coin price now).
  set (sel := rows_of_coin coin (insert_data coin price now t)).
  assert (Hsel : sel = rows_of_coin coin t ++ [new])
    by (unfold sel; rewrite rows_of_coin_insert, String.eqb_refl;
        reflexivity).
  pose proof (order_permutes sel) as Hperm.
  pose proof (order_sorts sel) as Hsort.
  assert (Hin_new : In new (order_by_timestamp_desc sel)).
  { apply (Permutation_in _ (Permutation_sym Hperm)).
    rewrite Hsel. apply in_or_app. right. left. reflexivity. }
  destruct (order_by_timestamp_desc sel) as [| r rest] eqn:Ho;
    [destruct Hin_new |].
  destruct (Z.to_nat page_size) as [| k] eqn:Hk; [lia |].
  cbn [firstn hd_error]. f_equal.
  assert (Hr : In r sel)
    by (apply (Permutation_in _ Hperm); left; reflexivity).
  rewrite Hsel in Hr. apply in_app_or in Hr.
  destruct Hr as [Hold | [Hr | []]]; [| symmetry; exact Hr].
  exfalso. specialize (Hnew r Hold).
  destruct Hin_new as [E | Hin]; [subst r; cbn in Hnew; lia |].
  unfold newest_first in Hsort. inversion Hsort as [| ? ? _ Hall]; subst.
  rewrite Forall_forall in Hall. specialize (Hall new Hin).
  cbn in Hall. lia.
Qed.

End Pagination.

(** X25.  A page number below 1 gives the first page: the negative offset counts
    as 0. *)
Theorem low_page_is_first_page
  (order_by_timestamp_desc : list PriceRow -> list PriceRow)
  (coin : String.string) (page page_size : Z) (t : PriceTable) :
  (page <= 1)%Z -> (0 <= page_size)%Z ->
  fetch_data_paginated order_by_timestamp_desc coin page page_size t
  = fetch_data_paginated order_by_timestamp_desc coin 1 page_size t.
Proof.
  intros Hp Hs. unfold fetch_data_paginated, sql_offset.
  replace (Z.to_nat ((page - 1) * page_size)) with 0%nat by nia.
  replace (Z.to_nat ((1 - 1) * page_size)) with 0%nat by lia.
  reflexivity.
Qed.

Lemma page_rows_witness :
  (0 <= 2)%Z
  /\ (Z.of_nat (length (fetch_data_paginated sort_rows "BTC"%string 1 2
                          example_table)) <= 2)%Z
  /\ newest_first (fetch_data_paginated sort_rows "BTC"%string 1 2
                     example_table).
Proof.
  assert (H : (0 <= 2)%Z) by lia.
  pose proof (page_rows sort_rows sort_rows_perm sort_rows_sorted
                "BTC"%string 1 2 example_table H) as [Hlen [Hsorted _]].
  split; [exact H |]. split; [exact Hlen | exact Hsorted].
Defined.

Lemma example_table_timestamps :
  forall r, In r (rows_of_coin "BTC"%string example_table) ->
    (row_timestamp r < 400)%Z.
Proof.
  intros r Hr. unfold rows_of_coin, example_table, insert_data, empty_table in Hr.
  cbn in Hr. repeat (destruct Hr as [<- | Hr]; [cbn; lia |]). destruct Hr.
Defined.

Lemma first_page_starts_with_insert_witness :
  (1 <= 5)%Z
  /\ hd_error (fetch_data_paginated sort_rows "BTC"%string 1 5
                 (insert_data "BTC"%string 40 400 example_table))
     = Some (mkPriceRow (last_id example_table + 1) "BTC"%string 40 400).
Proof.
  assert (H : (1 <= 5)%Z) by lia.
  split; [exact H |].
  exact (first_page_starts_with_insert sort_rows sort_rows_perm
           sort_rows_sorted "BTC"%string 40 400 5 example_table H
           example_table_timestamps).
Defined.

Lemma low_page_is_first_page_witness :
  fetch_data_paginated sort_rows "BTC"%string 0 2 example_table
  = fetch_data_paginated sort_rows "BTC"%string 1 2 example_table.
Proof.
  apply low_page_is_first_page; lia.
Defined.

Lemma insert_data_updates_aggregate_witness :
  fetch_aggregated_data "ETH"%string
    (insert_data "BTC"%string 40 400 example_table)
  = fetch_aggregated_data "ETH"%string example_table.
Proof.
  apply (proj1 (insert_data_updates_aggregate "BTC"%string "ETH"%string
                  40 400 example_table)).
  discriminate.
Defined.

(** * Properties of the chart of [streamlit_task/fig.py] *)

Lemma fold_fmax2_Fin (l : list R) (a : R) :
  fold_left fmax2 (map Fin l) (Fin a) = Fin (fold_left Rmax l a).
Proof.
  revert a. induction l as [| y l IH]; intros a; [reflexivity |].
  cbn [map fold_left].
  assert (E : fmax2 (Fin a) (Fin y) = Fin (Rmax a y)).
  { unfold fmax2. cbn [fltb].
    destruct (Rltb_spec a y) as [H | H]; f_equal;
      [rewrite Rmax_right | rewrite Rmax_left]; lra. }
  rewrite E. apply IH.
Qed.

Lemma series_min_Fin (x : R) (l : list R) :
  series_min (map Fin (x :: l)) = Fin (fold_left Rmin l x).
Proof.
  rewrite series_min_unfold, dropna_Fin. cbn [map]. apply fold_fmin2_Fin.
Qed.

Lemma series_max_Fin (x : R) (l : list R) :
  series_max (map Fin (x :: l)) = Fin (fold_left Rmax l x).
Proof.
  unfold series_max. rewrite dropna_Fin. cbn [map]. apply fold_fmax2_Fin.
Qed.

(** The smaller of the two minima, and the larger of the two maxima, of a
    non-empty finite series and a finite series that may be empty. *)
Lemma joint_minimum (x : R) (xs ys : list R) :
  exists m, py_min (series_min (map Fin (x :: xs))) (series_min (map Fin ys))
            = Fin m
            /\ forall y, In y (x :: xs) \/ In y ys -> m <= y.
Proof.
  rewrite series_min_Fin.
  pose proof (fold_left_Rmin_lower xs x) as Hx.
  destruct ys as [| z zs].
  - exists (fold_left Rmin xs x). split; [reflexivity |].
    intros y [Hy | []]. exact (Hx y Hy).
  - rewrite series_min_Fin.
    pose proof (fold_left_Rmin_lower zs z) as Hz.
    unfold py_min. cbn [fltb].
    destruct (Rltb_spec (fold_left Rmin zs z) (fold_left Rmin xs x))
      as [Hlt | Hge].
    + exists (fold_left Rmin zs z). split; [reflexivity |].
      intros y [Hy | Hy]; [specialize (Hx y Hy); lra | exact (Hz y Hy)].
    + exists (fold_left Rmin xs x). split; [reflexivity |].
      intros y [Hy | Hy]; [exact (Hx y Hy) | specialize (Hz y Hy); lra].
Qed.

Lemma joint_maximum (x : R) (xs ys : list R) :
  exists m, py_max (series_max (map Fin (x :: xs))) (series_max (map Fin ys))
            = Fin m
            /\ forall y, In y (x :: xs) \/ In y ys -> y <= m.
Proof.
  rewrite series_max_Fin.
  pose proof (fold_left_Rmax_upper xs x) as Hx.
  destruct ys as [| z zs].
  - exists (fold_left Rmax xs x). split; [reflexivity |].
    intros y [Hy | []]. exact (Hx y Hy).
  - rewrite series_max_Fin.
    pose proof (fold_left_Rmax_upper zs z) as Hz.
    unfold py_max. cbn [fltb].
    destruct (Rltb_spec (fold_left Rmax xs x) (fold_left Rmax zs z))
      as [Hlt | Hge].
    + exists (fold_left Rmax zs z). split; [reflexivity |].
      intros y [Hy | Hy]; [specialize (Hx y Hy); lra | exact (Hz y Hy)].
    + exists (fold_left Rmax xs x). split; [reflexivity |].
      intros y [Hy | Hy]; [exact (Hx y Hy) | specialize (Hz y Hy); lra].
Qed.

(** X26.  For a non-empty finite portfolio series and a finite benchmark series
    the chart is built, and its y range leaves a margin of at least 5 below
    and above every plotted value of both traces. *)
Theorem plot_range_covers_data (p b : Series) (x : R) (xs ys : list R) :
  values p = map Fin (x :: xs) -> values b = map Fin ys ->
  exists fig lo hi,
    plot_cumulative_returns p (Some b) = Plotted fig
    /\ yaxis_range fig = (Fin lo, Fin hi)
    /\ forall tr y, In tr (fig_traces fig) -> In y (trace_y tr) ->
         exists v, y = Fin v /\ lo + 5 <= v <= hi - 5.
Proof.
  intros Hp Hb.
  destruct (joint_minimum x xs ys) as [lo [Hlo Hlo_le]].
  destruct (joint_maximum x xs ys) as [hi [Hhi Hhi_ge]].
  unfold plot_cumulative_returns. rewrite Hp, Hb, Hlo, Hhi.
  destruct p as [| [first v0] p']; [discriminate Hp |].
  eexists. exists (lo * 100 - 5), (hi * 100 + 5).
  split; [reflexivity |]. split; [reflexivity |].
  cbn [fig_traces]. intros tr y [<- | [<- | []]] Hy; cbn [trace_y] in Hy.
  - rewrite map_map in Hy. apply in_map_iff in Hy. destruct Hy as [v [<- Hv]].
    exists (v * 100). split; [reflexivity |].
    specialize (Hlo_le v (or_introl Hv)). specialize (Hhi_ge v (or_introl Hv)).
    lra.
  - rewrite map_map in Hy. apply in_map_iff in Hy. destruct Hy as [v [<- Hv]].
    exists (v * 100). split; [reflexivity |].
    specialize (Hlo_le v (or_intror Hv)). specialize (Hhi_ge v (or_intror Hv)).
    lra.
Qed.

Lemma plot_range_covers_data_witness :
  exists fig lo hi,
    plot_cumulative_returns
      [(1%Z, Fin 0); (2%Z, Fin (1 / 10))] (Some [(1%Z, Fin (- 1 / 10))])
    = Plotted fig
    /\ yaxis_range fig = (Fin lo, Fin hi)
    /\ forall tr y, In tr (fig_traces fig) -> In y (trace_y tr) ->
         exists v, y = Fin v /\ lo + 5 <= v <= hi - 5.
Proof.
  exact (plot_range_covers_data
           [(1%Z, Fin 0); (2%Z, Fin (1 / 10))] [(1%Z, Fin (- 1 / 10))]
           0 [1 / 10] [- 1 / 10] eq_refl eq_refl).
Defined.

(** The chart is built only with a benchmark and a non-empty portfolio
    series: without a benchmark the function raises [AttributeError], with
    one and an empty portfolio series it raises [IndexError]. *)
Lemma plot_needs_benchmark_and_data (p : Series)
  (b : option Series) :
  (exists fig, plot_cumulative_returns p b = Plotted fig)
  <-> b <> None /\ p <> [].
Proof.
  unfold plot_cumulative_returns. split.
  - intros [fig H]. destruct b as [b |]; [| discriminate H].
    destruct p as [| [first v] p']; [discriminate H |].
    split; discriminate.
  - intros [Hb Hp]. destruct b as [b |]; [| congruence].
    destruct p as [| [first v] p']; [congruence |].
    eexists. reflexivity.
Qed.

(** * Properties of the allocation step of [streamlit_task/main.py] *)

Lemma Rsum_app (a b : list R) : Rsum (a ++ b) = Rsum a + Rsum b.
Proof. induction a as [| x a IH]; simpl; [ring | rewrite IH; ring]. Qed.

Lemma Rsum_map_plus {A : Type} (f g : A -> R) (l : list A) :
  Rsum (map f l) + Rsum (map g l) = Rsum (map (fun x => f x + g x) l).
Proof. induction l as [| x l IH]; simpl; [ring | rewrite <- IH; ring]. Qed.

Lemma Rsum_map_div {A : Type} (f : A -> R) (d : R) (l : list A) :
  Rsum (map (fun x => f x / d) l) = Rsum (map f l) / d.
Proof.
  induction l as [| x l IH]; simpl; [unfold Rdiv; ring |].
  rewrite IH. unfold Rdiv. ring.
Qed.

Lemma set_allocation_class (mode : AllocationType) (total v : R)
  (a : Asset) :
  asset_class (set_allocation mode total v a) = asset_class a.
Proof. destruct mode; reflexivity. Qed.

Section NoDeletion.

Variable inp : WidgetInputs.
Hypothesis no_click : forall ticker, delete_clicked inp ticker = false.

(** One pass without a click visits every entry once, in order. *)
Lemma class_pass_done (st : SessionState) (cls : String.string)
  (done items : Portfolio) (tw tv : R) :
  class_pass inp st cls done items tw tv
  = LoopDone
      (with_portfolio st
         (done ++ map (allocated_entry inp (total_value st) [cls]) items))
      (tw + Rsum (map (fun e =>
                         if String.eqb (asset_class (snd e)) cls
                         then asset_weight
                                (snd (allocated_entry inp (total_value st)
                                        [cls] e))
                         else 0) items))
      (tv + Rsum (map (fun e =>
                         if String.eqb (asset_class (snd e)) cls
                         then asset_value
                                (snd (allocated_entry inp (total_value st)
                                        [cls] e))
                         else 0) items)).
Proof.
  revert done tw tv. induction items as [| [k a] items IH];
    intros done tw tv.
  - cbn [class_pass map Rsum]. rewrite app_nil_r, !Rplus_0_r. reflexivity.
  - cbn [class_pass map Rsum]. unfold allocated_entry at 1 3 5.
    cbn [existsb fst snd]. rewrite orb_false_r.
    destruct (String.eqb_spec (asset_class a) cls) as [Hc | Hc].
    + rewrite no_click, IH, <- app_assoc. cbn [app].
      rewrite Hc. f_equal; first [reflexivity | cbn [snd]; ring].
    + rewrite IH, <- app_assoc. cbn [app].
      f_equal; first [reflexivity | ring].
Qed.

Lemma allocated_entry_step (total : R) (cls : String.string)
  (classes : list String.string) (e : String.string * Asset) :
  ~ In cls classes ->
  allocated_entry inp total classes (allocated_entry inp total [cls] e)
  = allocated_entry inp total (cls :: classes) e.
Proof.
  intros Hnot. unfold allocated_entry. cbn [existsb]. rewrite orb_false_r.
  destruct (String.eqb_spec (asset_class (snd e)) cls) as [Hc | Hc].
  - cbn [orb fst snd]. rewrite set_allocation_class.
    assert (Hex : existsb (String.eqb (asset_class (snd e))) classes
                  = false).
    { apply not_true_is_false. intros H. apply existsb_exists in H.
      destruct H as [c [Hin Heq]]. apply String.eqb_eq in Heq.
      apply Hnot. congruence. }
    rewrite Hex. reflexivity.
  - cbn [orb]. reflexivity.
Qed.

(** The whole walk without a click: every entry whose class is listed
    gets its widget's allocation, and the totals add up what was written. *)
Lemma classes_loop_done (classes : list String.string) (st : SessionState)
  (tw tv : R) :
  NoDup classes ->
  classes_loop inp classes st tw tv
  = LoopDone
      (with_portfolio st
         (map (allocated_entry inp (total_value st) classes)
              (portfolio st)))
      (tw + Rsum (map (fun e =>
                         if existsb (String.eqb (asset_class (snd e)))
                              classes
                         then asset_weight
                                (snd (allocated_entry inp (total_value st)
                                        classes e))
                         else 0) (portfolio st)))
      (tv + Rsum (map (fun e =>
                         if existsb (String.eqb (asset_class (snd e)))
                              classes
                         then asset_value
                                (snd (allocated_entry inp (total_value st)
                                        classes e))
                         else 0) (portfolio st))).
Proof.
  intros Hnd. revert st tw tv.
  induction Hnd as [| cls classes Hnot _ IH]; intros st tw tv.
  - cbn [classes_loop existsb]. unfold allocated_entry. cbn [existsb].
    rewrite map_id.
    assert (Hz : Rsum (map (fun _ : String.string * Asset => 0)
                         (portfolio st)) = 0).
    { induction (portfolio st) as [| e l IHl]; simpl;
        [reflexivity | rewrite IHl; ring]. }
    rewrite !Hz, !Rplus_0_r. destruct st; reflexivity.
  - cbn [classes_loop]. rewrite class_pass_done, IH.
    cbn [with_portfolio portfolio total_value app].
    rewrite !map_map.
    assert (Hmap : map (fun e => allocated_entry inp (total_value st) classes
                                   (allocated_entry inp (total_value st)
                                      [cls] e)) (portfolio st)
                   = map (allocated_entry inp (total_value st)
                            (cls :: classes)) (portfolio st))
      by (apply map_ext; intros e; apply allocated_entry_step; exact Hnot).
    rewrite Hmap. f_equal.
    + rewrite Rplus_assoc, Rsum_map_plus. f_equal. f_equal.
      apply map_ext. intros e.
      rewrite (allocated_entry_step _ _ _ e Hnot).
      unfold allocated_entry at 1 2. cbn [existsb].
      rewrite orb_false_r.
      destruct (String.eqb_spec (asset_class (snd e)) cls) as [Hc | Hc].
      * cbn [orb fst snd]. rewrite set_allocation_class.
        assert (Hex : existsb (String.eqb (asset_class (snd e))) classes
                      = false).
        { apply not_true_is_false. intros H. apply existsb_exists in H.
          destruct H as [c [Hin Heq]]. apply String.eqb_eq in Heq.
          apply Hnot. congruence. }
        rewrite Hex. unfold allocated_entry. cbn [existsb].
        rewrite Hc, String.eqb_refl. cbn [orb snd]. ring.
      * cbn [orb]. ring.
    + rewrite Rplus_assoc, Rsum_map_plus. f_equal. f_equal.
      apply map_ext. intros e.
      rewrite (allocated_entry_step _ _ _ e Hnot).
      unfold allocated_entry at 1 2. cbn [existsb].
      rewrite orb_false_r.
      destruct (String.eqb_spec (asset_class (snd e)) cls) as [Hc | Hc].
      * cbn [orb fst snd]. rewrite set_allocation_class.
        assert (Hex : existsb (String.eqb (asset_class (snd e))) classes
                      = false).
        { apply not_true_is_false. intros H. apply existsb_exists in H.
          destruct H as [c [Hin Heq]]. apply String.eqb_eq in Heq.
          apply Hnot. congruence. }
        rewrite Hex. unfold allocated_entry. cbn [existsb].
        rewrite Hc, String.eqb_refl. cbn [orb snd]. ring.
      * cbn [orb]. ring.
Qed.

End NoDeletion.

Lemma asset_classes_distinct : NoDup (map fst ASSET_CLASSES).
Proof.
  cbn [ASSET_CLASSES map fst].
  repeat constructor; simpl; intuition discriminate.
Qed.

Lemma known_class_listed (e : String.string * Asset) :
  In (asset_class (snd e)) (map fst ASSET_CLASSES) ->
  existsb (String.eqb (asset_class (snd e))) (map fst ASSET_CLASSES) = true.
Proof.
  intros H. apply existsb_exists. exists (asset_class (snd e)).
  split; [exact H | apply String.eqb_refl].
Qed.

(** The state and the total weight at the end of the walk, before the
    normalization, in a run without a click on a portfolio of known
    classes. *)
Lemma allocation_loop_total (inp : WidgetInputs) (st : SessionState) :
  (forall ticker, delete_clicked inp ticker = false) ->
  known_classes (portfolio st) ->
  exists tv,
    classes_loop inp (map fst ASSET_CLASSES) st 0 0
    = LoopDone
        (with_portfolio st
           (map (allocated_entry inp (total_value st)
                   (map fst ASSET_CLASSES)) (portfolio st)))
        (portfolio_weight
           (map (allocated_entry inp (total_value st)
                   (map fst ASSET_CLASSES)) (portfolio st)))
        tv.
Proof.
  intros Hno Hknown.
  rewrite (classes_loop_done inp Hno _ st 0 0 asset_classes_distinct).
  eexists. f_equal. rewrite Rplus_0_l. unfold portfolio_weight.
  rewrite map_map. f_equal. apply map_ext_in. intros e He.
  unfold known_classes in Hknown. rewrite Forall_forall in Hknown.
  rewrite (known_class_listed e (Hknown e He)). reflexivity.
Qed.

(** X27.  In a run without a click on Delete, on a portfolio whose assets all have
    one of the four asset classes, the allocation step ends with weights
    that add up to at most 1: to exactly 1 when the widgets allocated more
    than 100%, and to what the widgets allocated otherwise.  The tickers and
    their order are unchanged. *)
Theorem allocation_weights_at_most_one (inp : WidgetInputs)
  (st : SessionState) :
  (forall ticker, delete_clicked inp ticker = false) ->
  known_classes (portfolio st) ->
  exists st' total_weight total_value_sum,
    allocate_portfolio inp st = LoopDone st' total_weight total_value_sum
    /\ portfolio_weight (portfolio st')
       = (if Rltb 1 total_weight then 1 else total_weight)
    /\ portfolio_weight (portfolio st') <= 1
    /\ map fst (portfolio st') = map fst (portfolio st).
Proof.
  intros Hno Hknown.
  destruct (allocation_loop_total inp st Hno Hknown) as [tv Hloop].
  unfold allocate_portfolio. rewrite Hloop.
  set (p1 := map (allocated_entry inp (total_value st)
                    (map fst ASSET_CLASSES)) (portfolio st)).
  assert (Hkeys : map fst p1 = map fst (portfolio st)).
  { unfold p1. rewrite map_map. apply map_ext. intros e.
    unfold allocated_entry. destruct (existsb _ _); reflexivity. }
  eexists. exists (portfolio_weight p1), tv.
  split; [reflexivity |].
  unfold normalize_portfolio.
  destruct (Rltb_spec 1 (portfolio_weight p1)) as [Hgt | Hle];
    cbn [with_portfolio portfolio total_value].
  - assert (Hsum : portfolio_weight
                     (map (fun e =>
                             (fst e,
                              mkAsset (asset_class (snd e))
                                (asset_type (snd e))
                                (asset_weight (snd e) / portfolio_weight p1)
                                (asset_weight (snd e) / portfolio_weight p1
                                 * total_value st))) p1) = 1).
    { unfold portfolio_weight at 1. rewrite map_map. cbn [snd asset_weight].
      rewrite (Rsum_map_div (fun e => asset_weight (snd e))).
      fold (portfolio_weight p1). field. lra. }
    rewrite Hsum. split; [reflexivity |]. split; [lra |].
    rewrite map_map. cbn [fst]. exact Hkeys.
  - split; [reflexivity |]. split; [lra | exact Hkeys].
Qed.

(** X28.  In the percentage mode, after such a run, the value of every asset is
    its weight times the total portfolio value, normalized or not. *)
Theorem percent_mode_values_follow_weights (inp : WidgetInputs)
  (st : SessionState) :
  (forall ticker, delete_clicked inp ticker = false) ->
  known_classes (portfolio st) ->
  allocation_type inp = PercentWeighted ->
  exists st' total_weight total_value_sum,
    allocate_portfolio inp st = LoopDone st' total_weight total_value_sum
    /\ total_value st' = total_value st
    /\ forall e, In e (portfolio st') ->
         asset_value (snd e) = asset_weight (snd e) * total_value st.
Proof.
  intros Hno Hknown Hmode.
  destruct (allocation_loop_total inp st Hno Hknown) as [tv Hloop].
  unfold allocate_portfolio. rewrite Hloop.
  set (p1 := map (allocated_entry inp (total_value st)
                    (map fst ASSET_CLASSES)) (portfolio st)).
  eexists. exists (portfolio_weight p1), tv.
  split; [reflexivity |].
  unfold normalize_portfolio.
  destruct (Rltb 1 (portfolio_weight p1));
    cbn [with_portfolio portfolio total_value]; (split; [reflexivity |]).
  - intros e He. apply in_map_iff in He. destruct He as [e0 [<- _]].
    reflexivity.
  - intros e He. unfold p1 in He. apply in_map_iff in He.
    destruct He as [e0 [<- He0]].
    unfold known_classes in Hknown. rewrite Forall_forall in Hknown.
    unfold allocated_entry. rewrite (known_class_listed e0 (Hknown e0 He0)).
    rewrite Hmode. reflexivity.
Qed.

Lemma example_state_known_classes : known_classes (portfolio example_state).
Proof.
  unfold known_classes, example_state. cbn [portfolio].
  constructor; [left; reflexivity | constructor].
Defined.

Lemma allocation_weights_at_most_one_witness :
  exists st' total_weight total_value_sum,
    allocate_portfolio example_inputs example_state
    = LoopDone st' total_weight total_value_sum
    /\ portfolio_weight (portfolio st')
       = (if Rltb 1 total_weight then 1 else total_weight)
    /\ portfolio_weight (portfolio st') <= 1
    /\ map fst (portfolio st') = map fst (portfolio example_state).
Proof.
  exact (allocation_weights_at_most_one example_inputs example_state
           (fun _ => eq_refl) example_state_known_classes).
Defined.

Lemma percent_mode_values_follow_weights_witness :
  exists st' total_weight total_value_sum,
    allocate_portfolio example_inputs example_state
    = LoopDone st' total_weight total_value_sum
    /\ total_value st' = total_value example_state
    /\ forall e, In e (portfolio st') ->
         asset_value (snd e)
         = asset_weight (snd e) * total_value example_state.
Proof.
  exact (percent_mode_values_follow_weights example_inputs example_state
           (fun _ => eq_refl) example_state_known_classes eq_refl).
Defined.
